(** * whisk: the diagnostic output facility of [error.c]

    A shallow embedding of [src/error.c] (the build without SKIP_PARAMS_FILE):
    the lazy configuration gate [check_params_loaded], the reporters [error],
    [warning], [debug], [help], [progress] and the bar renderer
    [progress_meter].

    - Everything the C code does to the outside world is recorded, in order,
      as a list of [event]s: one event per call of [fprintf]/[vfprintf] on
      ERR_STREAM, per [fflush(NULL)] and per call of a collaborator.
    - A call either returns, terminates the process through [exit], or has
      undefined behaviour in C (overflow of [buf], signed overflow, a double
      that does not fit [int]).
    - [int] is a 32-bit signed integer carried by [Z]; [double] is IEEE 754
      binary64, carried by Rocq's primitive floats: every operation is
      rounded to nearest-even in binary64, with no excess precision.  What
      the roundings of [(len)*(cur-min)/(max-min)] can and cannot do to the
      fill of the bar is derived from the definitions of SpecFloat. *)

From Stdlib Require Import ZArith String Ascii List Bool Lia Floats.
From Stdlib Require Import DecimalString QArith Qpower Qreduction Qround Lqa.
Import ListNotations.

Open Scope string_scope.
Open Scope Z_scope.

(** ** Characters the C source writes as escapes *)

Definition CR : string := String "013"%char EmptyString.
Definition LF : string := String "010"%char EmptyString.
Definition TAB : string := String "009"%char EmptyString.

(** ** Variadic arguments and formatting *)

Inductive carg : Type :=
| VInt (z : Z)
| VStr (s : string)
| VChar (c : ascii)
| VDouble (d : float).

Definition va_list : Type := list carg.

(** ** The collaborators of [error.c]

    [Load_Params_File], [Print_Params_File], the two flags they populate and
    the C library's formatter are declared outside [error.c]; they are taken
    as parameters.  [params] is whatever state the parameters module and the
    file system hold.  [Load_Params_File] answers non-zero on failure.
    [vformat str argList] is the text that [vfprintf]/[vsprintf] produce for
    a format and its arguments. *)

Class Collaborators : Type := {
  params : Type;
  Load_Params_File : string -> params -> Z * params;
  Print_Params_File : string -> params -> params;
  SHOW_DEBUG_MESSAGES : params -> Z;
  SHOW_PROGRESS_MESSAGES : params -> Z;
  vformat : string -> va_list -> string
}.

(** ** Observable events *)

Inductive event : Type :=
| Fprintf (text : string)            (* one (v)fprintf(ERR_STREAM, ...) call *)
| Fflush                             (* fflush(NULL) *)
| Call_Load_Params_File (f : string)
| Call_Print_Params_File (f : string)
| Call_Print_Argument_Usage (no_escapes : Z).

(** The characters ERR_STREAM has received. *)
Fixpoint stream_text (tr : list event) : string :=
  match tr with
  | [] => ""
  | Fprintf t :: tr' => t ++ stream_text tr'
  | _ :: tr' => stream_text tr'
  end.

Fixpoint loader_calls (tr : list event) : nat :=
  match tr with
  | [] => O
  | Call_Load_Params_File _ :: tr' => S (loader_calls tr')
  | _ :: tr' => loader_calls tr'
  end.

Fixpoint flushes (tr : list event) : nat :=
  match tr with
  | [] => O
  | Fflush :: tr' => S (flushes tr')
  | _ :: tr' => flushes tr'
  end.

(** ** Machine integers *)

Definition INT_MIN : Z := - 2 ^ 31.
Definition INT_MAX : Z := 2 ^ 31 - 1.

Definition in_int (z : Z) : bool := (INT_MIN <=? z) && (z <=? INT_MAX).

(** Signed arithmetic: a result outside [int] is undefined behaviour. *)
Definition int_checked (z : Z) : option Z := if in_int z then Some z else None.
Definition int_add (a b : Z) : option Z := int_checked (a + b).
Definition int_sub (a b : Z) : option Z := int_checked (a - b).

(** What the parent process sees of [exit(code)] on POSIX. *)
Definition exit_status (code : Z) : Z := Z.land code 255.

(** ** Doubles

    [int_to_double] is the implicit conversion of [len] in
    [(len)*(cur-min)]; it is exact for every [int].  [double_to_int] is the
    conversion of the initialiser of [nc]: the value is truncated toward
    zero, and the behaviour is undefined for a NaN, an infinity or a value
    outside [int]. *)

Definition int_to_double (z : Z) : float :=
  if z <? 0 then PrimFloat.opp (PrimFloat.of_uint63 (Uint63.of_Z (- z)))
  else PrimFloat.of_uint63 (Uint63.of_Z z).

Definition truncate (x : spec_float) : option Z :=
  match x with
  | S754_zero _ => Some 0
  | S754_finite sign m e =>
      let magnitude :=
        match e with
        | Zneg p => Z.shiftr (Zpos m) (Zpos p)
        | _ => Z.shiftl (Zpos m) e
        end in
      Some (if sign then - magnitude else magnitude)
  | S754_infinity _ | S754_nan => None
  end.

Definition double_to_int (d : float) : option Z :=
  match truncate (Prim2SF d) with
  | Some z => int_checked z
  | None => None
  end.

(** [int nc = (len)*(cur-min)/(max-min);] *)
Definition fill_double (len : Z) (cur min max : float) : float :=
  (int_to_double len * (cur - min) / (max - min))%float.

Definition fill_count (len : Z) (cur min max : float) : option Z :=
  double_to_int (fill_double len cur min max).

(** The exact rational value of a finite double, in lowest terms. *)
Definition SF_value (x : spec_float) : option Q :=
  match x with
  | S754_zero _ => Some 0%Q
  | S754_finite sign m e =>
      let a := if sign then Zneg m else Zpos m in
      Some (match e with
            | Zneg p => Qred (Qmake a (2 ^ p)%positive)
            | _ => inject_Z (a * 2 ^ e)
            end)
  | S754_infinity _ | S754_nan => None
  end.

Definition double_value (d : float) : option Q := SF_value (Prim2SF d).

(** Rounding toward zero, as the conversion to [int] does. *)
Definition Qtruncate (q : Q) : Z :=
  if Qlt_le_dec q 0 then Qceiling q else Qfloor q.

(** The fill length as the specification words it, over exact values:
    floor(width_remaining * (current - min) / (max - min)). *)
Definition spec_fill (width_remaining : Z) (current min max : Q) : Z :=
  Qfloor (inject_Z width_remaining * (current - min) / (max - min)).

(** The three double operations of [fill_double] incur no rounding error on
    these inputs: the double obtained has the exact value of the quotient
    of the exact values [c], [m] and [M] of [cur], [min] and [max]. *)
Definition exact_fill (len : Z) (cur min max : float) (c m M : Q) : Prop :=
  double_value cur = Some c /\
  double_value min = Some m /\
  double_value max = Some M /\
  exists q, double_value (fill_double len cur min max) = Some q /\
            (q == inject_Z len * (c - m) / (M - m))%Q.

(** ** The line buffer [char buf[1024]]

    The buffer is carried as the C string it holds; the running count [n]
    of the source is its length, since every [sprintf(buf+n, ...)] appends
    at the terminating NUL and [n] is advanced by what was written.  A write
    whose terminating NUL would land outside [buf] is undefined behaviour. *)

Definition BUF_SIZE : Z := 1024.

Definition fits (buf : string) : bool := Z.of_nat (String.length buf) + 1 <=? BUF_SIZE.

Definition sprintf (buf text : string) : option string :=
  if fits (buf ++ text) then Some (buf ++ text) else None.

Definition obind {A B} (m : option A) (k : A -> option B) : option B :=
  match m with
  | Some a => k a
  | None => None
  end.

Notation "x <-? m ;; k" := (obind m (fun x => k))
  (at level 100, m at next level, right associativity).

(** [while (k-- > 0) n += sprintf(buf+n, text);]  The decrement also runs
    when the test fails, so [k = INT_MIN] overflows. *)
Fixpoint while_post_decrement (fuel : nat) (k : Z) (text buf : string) : option string :=
  if 0 <? k then
    match fuel with
    | O => None
    | S fuel' =>
        buf' <-? sprintf buf text ;;
        while_post_decrement fuel' (k - 1) text buf'
    end
  else if k =? INT_MIN then None else Some buf.

Definition while_loop (k : Z) (text buf : string) : option string :=
  while_post_decrement (Z.to_nat k) k text buf.

(** The body of [progress_meter] from [n = sprintf(buf, "\r")] to
    [buf[n] = '\0'], given the text [caption] that [vsprintf] produces. *)
Definition render_meter (cur min max : float) (len : Z) (caption : string) : option string :=
  buf <-? sprintf "" CR ;;
  buf <-? sprintf buf caption ;;
  buf <-? sprintf buf "[" ;;
  let n := Z.of_nat (String.length buf) in
  len <-? int_sub len (n - 1) ;;
  nc <-? fill_count len cur min max ;;
  nc1 <-? int_add nc 1 ;;
  len <-? int_sub len nc1 ;;
  buf <-? while_loop nc "|" buf ;;
  buf <-? while_loop len "-" buf ;;
  buf <-? sprintf buf ("]" ++ CR) ;;
  Some buf.

(** ** Vocabulary for the rendered line *)

Fixpoint copies (n : nat) (text : string) : string :=
  match n with
  | O => ""
  | S n' => text ++ copies n' text
  end.

Fixpoint count_char (c : ascii) (s : string) : nat :=
  match s with
  | EmptyString => O
  | String x s' => ((if Ascii.eqb x c then 1 else 0) + count_char c s')%nat
  end.

(** [len] after [len -= (n-1)]: the requested width less the caption and
    the opening bracket. *)
Definition width_remaining (len : Z) (caption : string) : Z :=
  len - (Z.of_nat (String.length caption) + 1).

(** The characters of a line that count against the width: everything but
    the two carriage returns. *)
Definition budget (line : string) : Z := Z.of_nat (String.length line) - 2.

(** The two runs of the bar, for a fill count [nc] and a remaining width
    [len]: what the two loops append. *)
Definition fill (nc : Z) : string := copies (Z.to_nat nc) "|".
Definition unfilled (len nc : Z) : string := copies (Z.to_nat (len - (nc + 1))) "-".

(** A double that is a zero or a NaN. *)
Definition vanishes (x : spec_float) : Prop :=
  match x with
  | S754_zero _ | S754_nan => True
  | _ => False
  end.

(** ** Vocabulary for the analysis of rounding

    The exact rational values that the analysis of [fill_double] speaks
    about. *)

(** [2 ^ e] as a rational number. *)
Definition pow2 (e : Z) : Q := (2 ^ e)%Q.

(** Magnitude and signed value of a finite double (0 for the others). *)
Definition mag (x : spec_float) : Q :=
  match x with
  | S754_finite _ m e => (inject_Z (Z.pos m) * pow2 e)%Q
  | _ => 0%Q
  end.

Definition sval (x : spec_float) : Q :=
  match x with
  | S754_finite s m e => (inject_Z (cond_Zopp s (Z.pos m)) * pow2 e)%Q
  | _ => 0%Q
  end.

(** The relative distance between a normal double and its neighbours, and
    the smallest positive double. *)
Definition u52 : Q := 1 # (2 ^ 52).
Definition least : Q := pow2 (-1074).

(** By how many bits [shr_fexp] shifts the mantissa [m] of exponent [e]. *)
Definition shift_of (prec emax m e : Z) : Z :=
  Z.max 0 (fexp prec emax (Zdigits2 m + e) - e).

(** A zero or a finite number; a finite number or an infinity. *)
Definition ordinary (x : spec_float) : Prop :=
  match x with
  | S754_zero _ | S754_finite _ _ _ => True
  | _ => False
  end.

Definition unbounded (x : spec_float) : Prop :=
  match x with
  | S754_finite _ _ _ | S754_infinity _ => True
  | _ => False
  end.

Section Facility.

Context {C : Collaborators}.

(** ** Process state and the execution monad *)

Record state : Type := mkState {
  _g_params_inited : Z;
  the_params : params;
  output : list event
}.

Inductive outcome (A : Type) : Type :=
| Returns (a : A) (s : state)
| Exits (code : Z) (s : state)
| Undefined.

Arguments Returns {A} a s.
Arguments Exits {A} code s.
Arguments Undefined {A}.

Definition M (A : Type) : Type := state -> outcome A.

Definition ret {A} (a : A) : M A := fun s => Returns a s.

Definition bind {A B} (m : M A) (k : A -> M B) : M B :=
  fun s =>
    match m s with
    | Returns a s' => k a s'
    | Exits code s' => Exits code s'
    | Undefined => Undefined
    end.

Notation "x <- m ;; k" := (bind m (fun x => k))
  (at level 100, m at next level, right associativity).
Notation "m ;;; k" := (bind m (fun _ => k))
  (at level 100, right associativity).

Definition emit (e : event) : M unit :=
  fun s => Returns tt (mkState (_g_params_inited s) (the_params s) (output s ++ [e])%list).

Definition emits (es : list event) (s : state) : state :=
  mkState (_g_params_inited s) (the_params s) (output s ++ es)%list.

Definition fprintf (text : string) : M unit := emit (Fprintf text).
Definition vfprintf (str : string) (argList : va_list) : M unit :=
  emit (Fprintf (vformat str argList)).
Definition fflush_NULL : M unit := emit Fflush.
Definition exit {A} (code : Z) : M A := fun s => Exits code s.
Definition undefined {A} : M A := fun _ => Undefined.

Definition call_Load_Params_File (f : string) : M Z :=
  fun s =>
    let (r, p) := Load_Params_File f (the_params s) in
    Returns r (mkState (_g_params_inited s) p (output s ++ [Call_Load_Params_File f])%list).

Definition call_Print_Params_File (f : string) : M unit :=
  fun s =>
    Returns tt (mkState (_g_params_inited s) (Print_Params_File f (the_params s))
                        (output s ++ [Call_Print_Params_File f])%list).

Definition set_inited (v : Z) : M unit :=
  fun s => Returns tt (mkState v (the_params s) (output s)).

Definition get_inited : M Z := fun s => Returns (_g_params_inited s) s.
Definition read_flag (flag : params -> Z) : M Z := fun s => Returns (flag (the_params s)) s.

(** ** warning *)

Definition warning (str : string) (argList : va_list) : M unit :=
  fprintf "--- Warning: " ;;;
  vfprintf str argList ;;;
  fflush_NULL.

(** ** check_params_loaded *)

Definition params_file : string := "default.parameters".

Definition load_failed_format : string :=
  "Make sure %s is in the calling directory" ++ LF ++
  "Could not load parameters from file: %s" ++ LF ++
  "Writing defaults to current directory." ++ LF ++
  TAB ++ "Trying again..." ++ LF.

Definition still_failed_format : string :=
  TAB ++ "Still couldn't load parameters from file." ++ LF.

Definition check_params_loaded : M Z :=
  let f := params_file in
  inited <- get_inited ;;
  if inited =? 0 then
    r <- call_Load_Params_File f ;;
    if negb (r =? 0) then
      warning load_failed_format [VStr f; VStr f] ;;;
      call_Print_Params_File f ;;;
      r' <- call_Load_Params_File f ;;
      if negb (r' =? 0) then
        warning still_failed_format [] ;;;
        ret 0
      else
        set_inited 1 ;;;
        ret 1
    else
      set_inited 1 ;;;
      ret 1
  else ret 1.

(** ** error *)

Definition error (str : string) (argList : va_list) : M unit :=
  fprintf "*** ERROR: " ;;;
  vfprintf str argList ;;;
  fflush_NULL ;;;
  exit (-1).

(** ** debug *)

Definition c_true (z : Z) : bool := negb (z =? 0).

Definition debug (str : string) (argList : va_list) : M unit :=
  ok <- check_params_loaded ;;
  flag <- read_flag SHOW_DEBUG_MESSAGES ;;
  (if c_true ok && c_true flag then vfprintf str argList else ret tt) ;;;
  fflush_NULL.

(** ** help *)

Definition help (show : Z) (str : string) (argList : va_list) : M unit :=
  if c_true show then
    emit (Call_Print_Argument_Usage 0) ;;;
    vfprintf str argList ;;;
    fflush_NULL ;;;
    exit 0
  else ret tt.

(** ** progress *)

Definition progress (str : string) (argList : va_list) : M unit :=
  ok <- check_params_loaded ;;
  flag <- read_flag SHOW_PROGRESS_MESSAGES ;;
  (if c_true ok && c_true flag then vfprintf str argList else ret tt) ;;;
  fflush_NULL.

(** ** progress_meter

    [fprintf(ERR_STREAM, buf)] passes the assembled line as the format
    string, with no arguments. *)

Definition progress_meter (cur min max : float) (len : Z)
                          (str : string) (argList : va_list) : M unit :=
  ok <- check_params_loaded ;;
  flag <- read_flag SHOW_PROGRESS_MESSAGES ;;
  if c_true ok && c_true flag then
    match render_meter cur min max len (vformat str argList) with
    | Some buf =>
        vfprintf buf [] ;;;
        fflush_NULL
    | None => undefined
    end
  else ret tt.

(** ** Vocabulary for traces *)

(** What one call of [warning] appends to the trace. *)
Definition warning_events (str : string) (argList : va_list) : list event :=
  [Fprintf "--- Warning: "; Fprintf (vformat str argList); Fflush].

(** What the gate appends to the trace on each of its paths from an
    uninitialised state: the first load alone; the first load, the first
    warning, the default file and the retry; the same followed by the
    second warning. *)
Definition first_load : list event := [Call_Load_Params_File params_file].

Definition fallback : list event :=
  (first_load
   ++ warning_events load_failed_format [VStr params_file; VStr params_file]
   ++ [Call_Print_Params_File params_file; Call_Load_Params_File params_file])%list.

Definition gave_up : list event :=
  (fallback ++ warning_events still_failed_format [])%list.

(** The message of [debug] or [progress], when it is let through. *)
Definition message_if (b : bool) (str : string) (argList : va_list) : list event :=
  if b then [Fprintf (vformat str argList)] else [].

(** Sequences of calls of the gated functions. *)
Inductive gated_call : Type :=
| Debug (str : string) (argList : va_list)
| Progress (str : string) (argList : va_list)
| Progress_meter (cur min max : float) (len : Z) (str : string) (argList : va_list).

Definition run_call (c : gated_call) : M unit :=
  match c with
  | Debug str argList => debug str argList
  | Progress str argList => progress str argList
  | Progress_meter cur min max len str argList =>
      progress_meter cur min max len str argList
  end.

Fixpoint run_calls (cs : list gated_call) : M unit :=
  match cs with
  | [] => ret tt
  | c :: cs' => run_call c ;;; run_calls cs'
  end.

End Facility.

Arguments Returns {C A} a s.
Arguments Exits {C A} code s.
Arguments Undefined {C A}.

(** ** A sample environment

    A concrete instance of the collaborators, used to evaluate the facility
    on explicit inputs: a parameters file that is loadable or not, a
    directory that is writable or not, and the part of [printf] made of
    plain characters, [%%], [%d], [%s] and [%c]. *)

Module Sample.

Definition decimal (z : Z) : string := NilZero.string_of_int (Z.to_int z).

(** A directive outside the subset, or one whose argument is missing or of
    another type, is undefined in C; it is copied through unchanged here,
    and no statement below relies on it. *)
Fixpoint printf (fmt : string) (args : va_list) : string :=
  match fmt with
  | EmptyString => EmptyString
  | String c EmptyString => String c EmptyString
  | String c (String d rest as tail) =>
      if Ascii.eqb c "%" then
        if Ascii.eqb d "%" then String "%" (printf rest args)
        else
          match args with
          | VInt z :: args' =>
              if Ascii.eqb d "d" then decimal z ++ printf rest args'
              else String c (String d (printf rest args))
          | VStr s :: args' =>
              if Ascii.eqb d "s" then s ++ printf rest args'
              else String c (String d (printf rest args))
          | VChar a :: args' =>
              if Ascii.eqb d "c" then String a (printf rest args')
              else String c (String d (printf rest args))
          | _ => String c (String d (printf rest args))
          end
      else String c (printf tail args)
  end.

Record disk : Type := mkDisk {
  loadable : bool;          (* default.parameters exists and parses *)
  writable : bool;          (* the calling directory accepts a new file *)
  in_file : Z * Z;          (* the two flags as the file gives them *)
  flags : Z * Z             (* the two flags as currently loaded *)
}.

Definition load (f : string) (d : disk) : Z * disk :=
  if loadable d then (0, mkDisk true (writable d) (in_file d) (in_file d))
  else (1, d).

Definition print (f : string) (d : disk) : disk :=
  if writable d then mkDisk true true (0, 1) (flags d) else d.

#[global] Instance collaborators : Collaborators := {|
  params := disk;
  Load_Params_File := load;
  Print_Params_File := print;
  SHOW_DEBUG_MESSAGES := fun d => fst (flags d);
  SHOW_PROGRESS_MESSAGES := fun d => snd (flags d);
  vformat := printf
|}.

(** A process of this environment, and a fresh one: nothing loaded,
    nothing written yet. *)
Definition process (inited : Z) (d : disk) (tr : list event) : state :=
  mkState inited d tr.

Definition fresh (d : disk) : state := process 0 d [].

Definition unreadable : disk := mkDisk false false (0, 0) (0, 0).
Definition missing : disk := mkDisk false true (0, 0) (0, 0).
Definition present (dbg prog : Z) : disk := mkDisk true true (dbg, prog) (0, 0).

End Sample.

(** * Properties *)

(** ** Strings *)

Lemma append_assoc (a b c : string) : (a ++ b) ++ c = a ++ (b ++ c).
Proof. induction a as [|x a IH]; simpl; [reflexivity|now rewrite IH]. Qed.

Lemma append_nil_r (a : string) : a ++ "" = a.
Proof. induction a as [|x a IH]; simpl; [reflexivity|now rewrite IH]. Qed.

Lemma length_append (a b : string) :
  String.length (a ++ b) = (String.length a + String.length b)%nat.
Proof. induction a as [|x a IH]; simpl; [reflexivity|now rewrite IH]. Qed.

Section Facts.

Context {C : Collaborators}.

(** ** The execution monad *)

Lemma emits_nil (s : state) : emits [] s = s.
Proof. destruct s; unfold emits; simpl; now rewrite app_nil_r. Qed.

Lemma emits_emits (es es' : list event) (s : state) :
  emits es' (emits es s) = emits (es ++ es')%list s.
Proof. unfold emits; simpl; now rewrite app_assoc. Qed.

Lemma emit_spec (e : event) (s : state) : emit e s = Returns tt (emits [e] s).
Proof. reflexivity. Qed.

Lemma stream_text_app (tr tr' : list event) :
  stream_text (tr ++ tr') = stream_text tr ++ stream_text tr'.
Proof.
  induction tr as [|e tr IH]; simpl; [reflexivity|].
  destruct e; simpl; rewrite IH; auto.
  now rewrite append_assoc.
Qed.

Lemma loader_calls_app (tr tr' : list event) :
  loader_calls (tr ++ tr') = (loader_calls tr + loader_calls tr')%nat.
Proof. induction tr as [|e tr IH]; simpl; [reflexivity|]. destruct e; simpl; lia. Qed.

Lemma flushes_app (tr tr' : list event) :
  flushes (tr ++ tr') = (flushes tr + flushes tr')%nat.
Proof. induction tr as [|e tr IH]; simpl; [reflexivity|]. destruct e; simpl; lia. Qed.

(** ** warning *)

Lemma warning_spec (str : string) (argList : va_list) (s : state) :
  warning str argList s = Returns tt (emits (warning_events str argList) s).
Proof.
  unfold warning, bind, fprintf, vfprintf, fflush_NULL, emit, emits; simpl.
  now rewrite <- !app_assoc.
Qed.

(** ** The gate *)

Lemma gate_initialised (s : state) :
  _g_params_inited s <> 0 -> check_params_loaded s = Returns 1 s.
Proof.
  intros H. unfold check_params_loaded, bind, get_inited.
  destruct (Z.eqb_spec (_g_params_inited s) 0); [contradiction|reflexivity].
Qed.

Lemma gate_uninitialised (s : state) :
  _g_params_inited s = 0 ->
  check_params_loaded s =
    let (r1, p1) := Load_Params_File params_file (the_params s) in
    if r1 =? 0 then Returns 1 (mkState 1 p1 (output s ++ first_load))
    else
      let (r2, p2) := Load_Params_File params_file (Print_Params_File params_file p1) in
      if r2 =? 0 then Returns 1 (mkState 1 p2 (output s ++ fallback))
      else Returns 0 (mkState 0 p2 (output s ++ gave_up)).
Proof.
  intros H.
  unfold check_params_loaded, bind, get_inited, call_Load_Params_File.
  rewrite H. cbn [Z.eqb negb].
  destruct (Load_Params_File params_file (the_params s)) as [r1 p1].
  destruct (r1 =? 0); cbn [negb]; [reflexivity|].
  rewrite warning_spec. unfold call_Print_Params_File, emits.
  cbn [the_params output _g_params_inited].
  destruct (Load_Params_File params_file (Print_Params_File params_file p1)) as [r2 p2].
  destruct (r2 =? 0); cbn [negb].
  - unfold set_inited, ret, fallback, first_load. cbn [the_params output].
    rewrite <- !app_assoc. reflexivity.
  - rewrite warning_spec. unfold ret, emits, gave_up, fallback, first_load.
    cbn [the_params output _g_params_inited].
    rewrite H, <- !app_assoc. reflexivity.
Qed.

End Facts.

(** ** The two loops *)

Lemma fits_prefix (a b : string) : fits (a ++ b) = true -> fits a = true.
Proof.
  unfold fits, BUF_SIZE. rewrite length_append. intros H.
  apply Z.leb_le in H. apply Z.leb_le. lia.
Qed.

Lemma sprintf_Some (buf text buf' : string) :
  sprintf buf text = Some buf' -> buf' = buf ++ text /\ fits buf' = true.
Proof.
  unfold sprintf. destruct (fits (buf ++ text)) eqn:E; [|discriminate].
  intros [= <-]. auto.
Qed.

Lemma while_post_decrement_Some (fuel : nat) :
  forall k text buf buf',
    fuel = Z.to_nat k ->
    while_post_decrement fuel k text buf = Some buf' ->
    buf' = buf ++ copies fuel text /\ k <> INT_MIN.
Proof.
  induction fuel as [|fuel IH]; intros k text buf buf' Hk; cbn [while_post_decrement copies].
  - destruct (Z.ltb_spec 0 k); [lia|].
    destruct (Z.eqb_spec k INT_MIN); [discriminate|].
    intros [= <-]. now rewrite append_nil_r.
  - destruct (Z.ltb_spec 0 k); [|lia].
    unfold obind. destruct (sprintf buf text) as [b|] eqn:E; [|discriminate].
    apply sprintf_Some in E as [-> _]. intros H'.
    apply IH in H' as [-> _]; [|lia].
    split; [now rewrite append_assoc|]. unfold INT_MIN. lia.
Qed.

(** The fuel [Z.to_nat k] is never exhausted: the loop stops by itself, and
    fails only through undefined behaviour. *)
Lemma while_post_decrement_total (fuel : nat) :
  forall k text buf,
    fuel = Z.to_nat k ->
    k <> INT_MIN ->
    fits (buf ++ copies fuel text) = true ->
    while_post_decrement fuel k text buf = Some (buf ++ copies fuel text).
Proof.
  induction fuel as [|fuel IH]; intros k text buf Hk Hmin Hfit; cbn [while_post_decrement copies].
  - destruct (Z.ltb_spec 0 k); [lia|].
    destruct (Z.eqb_spec k INT_MIN); [contradiction|].
    now rewrite append_nil_r.
  - destruct (Z.ltb_spec 0 k); [|lia].
    cbn [copies] in Hfit. rewrite <- append_assoc in Hfit.
    unfold sprintf. rewrite (fits_prefix _ _ Hfit). cbn [obind].
    rewrite IH; [now rewrite append_assoc|lia| |assumption].
    unfold INT_MIN. lia.
Qed.

Lemma while_loop_Some (k : Z) (text buf buf' : string) :
  while_loop k text buf = Some buf' ->
  buf' = buf ++ copies (Z.to_nat k) text /\ k <> INT_MIN.
Proof. unfold while_loop. now apply while_post_decrement_Some. Qed.

Lemma length_copies (n : nat) (c : string) :
  String.length (copies n c) = (n * String.length c)%nat.
Proof. induction n as [|n IH]; cbn [copies]; [reflexivity|]. rewrite length_append, IH. lia. Qed.

Lemma count_char_append (c : ascii) (a b : string) :
  count_char c (a ++ b) = (count_char c a + count_char c b)%nat.
Proof. induction a as [|x a IH]; simpl; [reflexivity|]. rewrite IH. lia. Qed.

Lemma count_char_copies_same (n : nat) (c : ascii) :
  count_char c (copies n (String c "")) = n.
Proof. induction n as [|n IH]; simpl; [reflexivity|]. rewrite Ascii.eqb_refl, IH. reflexivity. Qed.

Lemma count_char_copies_other (n : nat) (c d : ascii) :
  Ascii.eqb d c = false -> count_char c (copies n (String d "")) = O.
Proof. intros H. induction n as [|n IH]; simpl; [reflexivity|]. now rewrite H, IH. Qed.

(** ** The shape of the rendered line *)

Lemma int_checked_Some (z z' : Z) : int_checked z = Some z' -> z' = z.
Proof. unfold int_checked. destruct (in_int z); [now intros [= <-]|discriminate]. Qed.

Lemma int_checked_range (z z' : Z) :
  int_checked z = Some z' -> INT_MIN <= z <= INT_MAX.
Proof.
  unfold int_checked, in_int.
  destruct (INT_MIN <=? z) eqn:E1, (z <=? INT_MAX) eqn:E2; try discriminate.
  intros _. apply Z.leb_le in E1, E2. lia.
Qed.

Lemma render_meter_shape (cur min max : float) (len : Z) (caption line : string) :
  render_meter cur min max len caption = Some line ->
  exists nc,
    fill_count (width_remaining len caption) cur min max = Some nc /\
    line = CR ++ caption ++ "[" ++ fill nc
           ++ unfilled (width_remaining len caption) nc ++ "]" ++ CR /\
    INT_MIN <= width_remaining len caption <= INT_MAX.
Proof.
  unfold render_meter, obind.
  destruct (sprintf "" CR) as [b0|] eqn:E0; [|discriminate].
  apply sprintf_Some in E0 as [-> _].
  destruct (sprintf ("" ++ CR) caption) as [b1|] eqn:E1; [|discriminate].
  apply sprintf_Some in E1 as [-> _].
  destruct (sprintf (("" ++ CR) ++ caption) "[") as [b2|] eqn:E2; [|discriminate].
  apply sprintf_Some in E2 as [-> _].
  destruct (int_sub len _) as [len1|] eqn:E3; [|discriminate].
  pose proof (int_checked_range _ _ E3) as Hrange.
  apply int_checked_Some in E3.
  assert (Hw : len1 = width_remaining len caption).
  { subst len1. unfold width_remaining. rewrite !length_append. cbn [String.length CR append]. lia. }
  rewrite <- E3, Hw in Hrange. rewrite Hw. clear E3 Hw.
  destruct (fill_count _ cur min max) as [nc|] eqn:E4; [|discriminate].
  destruct (int_add nc 1) as [nc1|] eqn:E5; [|discriminate].
  apply int_checked_Some in E5. subst nc1.
  destruct (int_sub _ (nc + 1)) as [len2|] eqn:E6; [|discriminate].
  apply int_checked_Some in E6. subst len2.
  destruct (while_loop nc "|" _) as [b3|] eqn:E7; [|discriminate].
  apply while_loop_Some in E7 as [-> _].
  destruct (while_loop _ "-" _) as [b4|] eqn:E8; [|discriminate].
  apply while_loop_Some in E8 as [-> _].
  destruct (sprintf _ ("]" ++ CR)) as [b5|] eqn:E9; [|discriminate].
  apply sprintf_Some in E9 as [-> _].
  intros [= <-]. exists nc. split; [reflexivity|]. split; [|exact Hrange].
  unfold fill, unfilled. cbn [append]. now rewrite !append_assoc.
Qed.

(** ** Doubles *)

Lemma SFsub_of_equals (x y : spec_float) :
  SFeqb x y = true -> vanishes (SF64sub x y) \/ exists s, x = S754_infinity s.
Proof.
  unfold SFeqb.
  destruct x as [sx|sx| |sx mx ex], y as [sy|sy| |sy my ey]; cbn [SFcompare];
    try discriminate; try (destruct sx; discriminate); try (destruct sy; discriminate).
  - intros _. left. destruct sx, sy; exact I.
  - intros _. right. now exists sx.
  - intros H. left.
    assert (Heq : ex = ey /\ mx = my /\ sx = sy).
    { destruct sx, sy; try discriminate;
        destruct (Z.compare_spec ex ey); try discriminate;
        destruct (Pos.compare_cont Eq mx my) eqn:E; try discriminate;
        apply Pos.compare_eq in E; auto. }
    destruct Heq as (-> & -> & ->).
    unfold SF64sub, SFsub. rewrite Z.sub_diag. exact I.
Qed.

Lemma SFmul_vanishes (x y : spec_float) : vanishes y -> vanishes (SF64mul x y).
Proof. destruct x as [| | |], y as [| | |]; cbn; tauto. Qed.

Lemma SFdiv_vanishes (x y : spec_float) : vanishes x -> vanishes (SF64div x y).
Proof. destruct x as [| | |], y as [| | |]; cbn; tauto. Qed.

Lemma SFmul_nan (x : spec_float) : SF64mul x S754_nan = S754_nan.
Proof. now destruct x. Qed.

Lemma truncate_vanishes (x : spec_float) (z : Z) :
  vanishes x -> truncate x = Some z -> z = 0.
Proof. destruct x; cbn; try tauto; intros _ [= <-]; reflexivity || discriminate. Qed.

(** [current == min] gives a fill count of zero whenever the conversion is
    defined at all. *)
Lemma fill_count_at_min (len : Z) (cur min max : float) (nc : Z) :
  (cur =? min)%float = true ->
  fill_count len cur min max = Some nc ->
  nc = 0.
Proof.
  intros Heq. unfold fill_count, double_to_int, fill_double.
  rewrite div_spec, mul_spec, sub_spec. rewrite FloatAxioms.eqb_spec in Heq.
  destruct (SFsub_of_equals _ _ Heq) as [Hv|[s Hs]].
  - apply (SFmul_vanishes (Prim2SF (int_to_double len))) in Hv.
    apply (SFdiv_vanishes _ (Prim2SF (max - min)%float)) in Hv.
    destruct (truncate _) as [z|] eqn:E; [|discriminate].
    apply (truncate_vanishes _ _ Hv) in E. subst z. now intros [= <-].
  - (* both are the same infinity: the difference is a NaN *)
    unfold SFeqb in Heq. rewrite Hs in *.
    destruct (Prim2SF min) as [| s'| |]; cbn in Heq; try discriminate;
      try (destruct s; discriminate).
    assert (Hn : SF64sub (S754_infinity s) (S754_infinity s') = S754_nan)
      by (destruct s, s'; try discriminate; reflexivity).
    rewrite Hn, SFmul_nan. discriminate.
Qed.

Lemma Qtruncate_comp (q q' : Q) : (q == q')%Q -> Qtruncate q = Qtruncate q'.
Proof.
  intros H. unfold Qtruncate.
  destruct (Qlt_le_dec q 0), (Qlt_le_dec q' 0);
    try (now rewrite H); rewrite H in *; lra.
Qed.

(** The conversion to [int] truncates the exact value toward zero. *)
Lemma truncate_value (x : spec_float) (q : Q) :
  SF_value x = Some q -> truncate x = Some (Qtruncate q).
Proof.
  destruct x as [s|s| |s m e]; unfold SF_value, truncate; try discriminate.
  - intros [= <-]. reflexivity.
  - intros H. apply (f_equal (fun o => match o with Some v => v | None => 0%Q end)) in H.
    cbv beta iota zeta in H. subst q. f_equal.
    destruct e as [|p|p].
    + unfold Qtruncate. rewrite Z.shiftl_0_r, Z.mul_1_r.
      destruct (Qlt_le_dec _ _); [rewrite Qceiling_Z|rewrite Qfloor_Z]; now destruct s.
    + unfold Qtruncate. rewrite Z.shiftl_mul_pow2 by lia.
      destruct (Qlt_le_dec _ _); [rewrite Qceiling_Z|rewrite Qfloor_Z];
        destruct s; lia.
    + rewrite (Qtruncate_comp _ _ (Qred_correct _)). unfold Qtruncate.
      rewrite Z.shiftr_div_pow2 by lia.
      assert (Hd : Z.pos (2 ^ p) = 2 ^ Z.pos p) by now rewrite Pos2Z.inj_pow.
      destruct (Qlt_le_dec _ _) as [Hq|Hq]; destruct s;
        unfold Qceiling, Qfloor, Qopp, Qlt, Qle in *; cbn in *; rewrite ?Hd; try lia.
Qed.

Lemma Qtruncate_nonneg (q : Q) : (0 <= q)%Q -> Qtruncate q = Qfloor q.
Proof.
  intros H. unfold Qtruncate. destruct (Qlt_le_dec q 0); [lra|reflexivity].
Qed.

Lemma exact_fill_count (len : Z) (cur min max : float) (c m M : Q) (nc : Z) :
  exact_fill len cur min max c m M ->
  fill_count len cur min max = Some nc ->
  nc = Qtruncate (inject_Z len * (c - m) / (M - m)).
Proof.
  intros (_ & _ & _ & q & Hq & Heq). unfold fill_count, double_to_int.
  unfold double_value in Hq. rewrite (truncate_value _ _ Hq).
  intros H. apply int_checked_Some in H. subst nc. now apply Qtruncate_comp.
Qed.

Section ExactRatio.

Variables (len : Z) (c m M : Q).
Hypothesis min_lt_max : (m < M)%Q.
Hypothesis min_le_cur : (m <= c)%Q.

Let x : Q := (inject_Z len * (c - m) / (M - m))%Q.

Lemma scaled_ratio_nonneg : 0 <= len -> (0 <= x)%Q.
Proof.
  intros Hl. unfold x. apply Qle_shift_div_l; [lra|].
  assert (0 <= inject_Z len)%Q by (change 0%Q with (inject_Z 0); now rewrite <- Zle_Qle).
  nra.
Qed.

(** In exact arithmetic the truncated quotient is the floor the
    specification names. *)
Lemma Qtruncate_is_spec_fill : 0 <= len -> Qtruncate x = spec_fill len c m M.
Proof. intros Hl. apply Qtruncate_nonneg. now apply scaled_ratio_nonneg. Qed.

End ExactRatio.

(** ** Rounding in binary64

    What the three rounded operations of [fill_double] and the conversion
    to [int] do to the exact quotient, from the definitions of SpecFloat. *)

(** The Corelib copies of the integer operations, as SpecFloat uses them,
    turned into the Standard Library's. *)
Ltac std :=
  change IntDef.Z.add with Z.add in *;
  change IntDef.Z.sub with Z.sub in *;
  change IntDef.Z.opp with Z.opp in *;
  change IntDef.Z.mul with Z.mul in *;
  change IntDef.Z.pow with Z.pow in *;
  change IntDef.Z.max with Z.max in *;
  change IntDef.Z.min with Z.min in *;
  change IntDef.Z.leb with Z.leb in *;
  change IntDef.Z.ltb with Z.ltb in *;
  change IntDef.Z.eqb with Z.eqb in *;
  change IntDef.Z.compare with Z.compare in *;
  change IntDef.Z.even with Z.even in *;
  change IntDef.Z.div with Z.div in *;
  change IntDef.Z.modulo with Z.modulo in *;
  change IntDef.Z.div_eucl with Z.div_eucl in *;
  change IntDef.Z.shiftl with Z.shiftl in *;
  change IntDef.Z.div2 with Z.div2 in *;
  change PosDef.Pos.mul with Pos.mul in *;
  change PosDef.Pos.succ with Pos.succ in *;
  change (@PosDef.Pos.iter) with (@Pos.iter) in *;
  change PosDef.Pos.compare_cont with Pos.compare_cont in *.

(** *** Binary digits *)

Lemma digits2_pos_size (p : positive) : digits2_pos p = Pos.size p.
Proof. induction p; cbn; now rewrite ?IHp. Qed.

Lemma digits2_pos_bounds (p : positive) :
  2 ^ (Z.pos (digits2_pos p) - 1) <= Z.pos p < 2 ^ Z.pos (digits2_pos p).
Proof.
  rewrite digits2_pos_size. split.
  - pose proof (Pos.size_le p) as H.
    apply Pos2Z.pos_le_pos in H. rewrite Pos2Z.inj_pow in H.
    change (Z.pos p~0) with (2 * Z.pos p) in H.
    replace (Z.pos (Pos.size p)) with (Z.succ (Z.pos (Pos.size p) - 1)) in H at 1 by lia.
    rewrite Z.pow_succ_r in H by lia. lia.
  - pose proof (Pos.size_gt p) as H.
    apply Pos2Z.pos_lt_pos in H. now rewrite Pos2Z.inj_pow in H.
Qed.

(** *** Shifting right *)

Lemma shr_1_m (mrs : shr_record) :
  0 <= shr_m mrs -> shr_m (shr_1 mrs) = shr_m mrs / 2.
Proof.
  destruct mrs as [m r s]. cbn [shr_m]. intros H.
  rewrite <- Z.div2_div.
  destruct m as [|p|p]; [reflexivity| |lia]. now destruct p.
Qed.

Lemma iter_shr_m (p : positive) :
  forall mrs, 0 <= shr_m mrs ->
    shr_m (SpecFloat.iter_pos shr_1 p mrs) = shr_m mrs / 2 ^ Z.pos p.
Proof.
  induction p as [p IH|p IH|]; intros mrs H; cbn [SpecFloat.iter_pos].
  - assert (H1 : 0 <= shr_m (shr_1 mrs)) by (rewrite shr_1_m by assumption; apply Z.div_pos; lia).
    assert (H2 : 0 <= shr_m (SpecFloat.iter_pos shr_1 p (shr_1 mrs)))
      by (rewrite IH by assumption; apply Z.div_pos; lia).
    rewrite IH, IH, shr_1_m by assumption.
    rewrite !Z.div_div by lia. f_equal.
    replace (Z.pos p~1) with (1 + (Z.pos p + Z.pos p)) by lia.
    rewrite !Z.pow_add_r by lia. reflexivity.
  - assert (H2 : 0 <= shr_m (SpecFloat.iter_pos shr_1 p mrs))
      by (rewrite IH by assumption; apply Z.div_pos; lia).
    rewrite IH, IH by assumption.
    rewrite !Z.div_div by lia. f_equal.
    replace (Z.pos p~0) with (Z.pos p + Z.pos p) by lia.
    rewrite !Z.pow_add_r by lia. reflexivity.
  - rewrite shr_1_m by assumption. reflexivity.
Qed.

(** Shifting out zeros loses nothing. *)
Lemma shr_1_exact (m : Z) :
  0 <= m -> shr_1 (Build_shr_record (2 * m) false false) = Build_shr_record m false false.
Proof. intros H. destruct m as [|p|p]; [reflexivity|reflexivity|lia]. Qed.

Lemma iter_shr_exact (p : positive) :
  forall m, 0 <= m ->
    SpecFloat.iter_pos shr_1 p (Build_shr_record (m * 2 ^ Z.pos p) false false)
    = Build_shr_record m false false.
Proof.
  induction p as [p IH|p IH|]; intros m H; cbn [SpecFloat.iter_pos].
  - replace (m * 2 ^ Z.pos p~1) with (2 * ((m * 2 ^ Z.pos p) * 2 ^ Z.pos p)).
    + rewrite shr_1_exact, IH, IH; [reflexivity|lia| |]; nia.
    + replace (Z.pos p~1) with (1 + (Z.pos p + Z.pos p)) by lia.
      rewrite !Z.pow_add_r by lia. lia.
  - replace (m * 2 ^ Z.pos p~0) with ((m * 2 ^ Z.pos p) * 2 ^ Z.pos p).
    + rewrite IH, IH; [reflexivity|lia|nia].
    + replace (Z.pos p~0) with (Z.pos p + Z.pos p) by lia.
      rewrite !Z.pow_add_r by lia. lia.
  - replace (m * 2 ^ 1) with (2 * m) by lia. now apply shr_1_exact.
Qed.

(** [shr_fexp] divides the mantissa by [2 ^ shift_of] and raises the
    exponent by as much. *)
Lemma shr_fexp_spec (prec emax m e : Z) (l : location) :
  0 <= m ->
  shr_m (fst (shr_fexp prec emax m e l)) = m / 2 ^ shift_of prec emax m e /\
  snd (shr_fexp prec emax m e l) = e + shift_of prec emax m e.
Proof.
  intros Hm. unfold shr_fexp, shr, shift_of. std.
  assert (Hl : shr_m (shr_record_of_loc m l) = m) by (destruct l as [|[]]; reflexivity).
  destruct (fexp prec emax (Zdigits2 m + e) - e) as [|p|p] eqn:E; cbn [fst snd].
  - rewrite Hl. cbn. rewrite Z.div_1_r. split; lia.
  - rewrite iter_shr_m by (rewrite Hl; lia). rewrite Hl.
    rewrite Z.max_r by lia. split; reflexivity.
  - rewrite Hl. rewrite Z.max_l by lia. cbn. rewrite Z.div_1_r. split; lia.
Qed.

Lemma shr_fexp_exact (prec emax m e : Z) :
  0 <= m ->
  (2 ^ shift_of prec emax m e | m) ->
  fst (shr_fexp prec emax m e loc_Exact)
  = Build_shr_record (m / 2 ^ shift_of prec emax m e) false false.
Proof.
  intros Hm [t Ht]. unfold shr_fexp, shr, shift_of in *. std.
  destruct (fexp prec emax (Zdigits2 m + e) - e) as [|p|p] eqn:E; cbn [fst snd shr_record_of_loc].
  - now rewrite Z.max_l, Z.pow_0_r, Z.div_1_r by lia.
  - rewrite Z.max_r in * by lia.
    assert (P : 0 < 2 ^ Z.pos p) by (apply Z.pow_pos_nonneg; lia).
    assert (Ht0 : 0 <= t) by nia.
    rewrite Ht at 1. rewrite iter_shr_exact by assumption.
    now rewrite Ht, Z.div_mul by lia.
  - now rewrite Z.max_l, Z.pow_0_r, Z.div_1_r by lia.
Qed.

(** Rounding to nearest even keeps the mantissa or adds one. *)
Lemma round_nearest_even_range (m : Z) (l : location) :
  m <= round_nearest_even m l <= m + 1.
Proof.
  destruct l as [|[]]; unfold round_nearest_even; std; try lia.
  destruct (Z.even m); lia.
Qed.

(** A finite result of [binary_round_aux]: its sign, the range of its
    exponent, and its mantissa against the mantissa given, which it
    reproduces when nothing was shifted out. *)
Lemma BRA_finite (prec emax : Z) (s : bool) (mx ex : Z) (lx : location)
      (s' : bool) (m' : positive) (e' : Z) :
  0 <= mx ->
  binary_round_aux prec emax s mx ex lx = S754_finite s' m' e' ->
  s' = s /\ ex <= e' /\ e' <= emax - prec /\
  (Z.pos m' - 1) * 2 ^ (e' - ex) <= mx < (Z.pos m' + 1) * 2 ^ (e' - ex) /\
  (lx = loc_Exact -> (2 ^ (e' - ex) | mx) -> Z.pos m' * 2 ^ (e' - ex) = mx).
Proof.
  intros Hmx. unfold binary_round_aux.
  destruct (shr_fexp_spec prec emax mx ex lx Hmx) as [Hm1 He1].
  pose proof (shr_fexp_exact prec emax mx ex Hmx) as Hx1.
  destruct (shr_fexp prec emax mx ex lx) as [mrs1 e1] eqn:E1. cbn [fst snd] in Hm1, He1.
  set (mr := round_nearest_even (shr_m mrs1) (loc_of_shr_record mrs1)).
  pose proof (round_nearest_even_range (shr_m mrs1) (loc_of_shr_record mrs1)) as Hr.
  fold mr in Hr.
  assert (Hm1' : 0 <= shr_m mrs1).
  { rewrite Hm1. apply Z.div_pos; [lia|]. apply Z.pow_pos_nonneg; [lia|].
    unfold shift_of. lia. }
  assert (Hmr : 0 <= mr) by lia.
  destruct (shr_fexp_spec prec emax mr e1 loc_Exact Hmr) as [Hm2 He2].
  destruct (shr_fexp prec emax mr e1 loc_Exact) as [mrs2 e2]. cbn [fst snd] in Hm2, He2.
  destruct (shr_m mrs2) as [|m2|m2] eqn:E2; try discriminate.
  std. destruct (Z.leb_spec e2 (emax - prec)); [|discriminate].
  intros [= <- <- <-].
  set (k1 := shift_of prec emax mx ex) in *.
  set (k2 := shift_of prec emax mr e1) in *.
  assert (Hk1 : 0 <= k1) by (unfold k1, shift_of; lia).
  assert (Hk2 : 0 <= k2) by (unfold k2, shift_of; lia).
  split; [reflexivity|]. split; [lia|]. split; [lia|].
  replace (e2 - ex) with (k1 + k2) by lia. rewrite Z.pow_add_r by lia.
  assert (P1 : 0 < 2 ^ k1) by (apply Z.pow_pos_nonneg; lia).
  assert (P2 : 0 < 2 ^ k2) by (apply Z.pow_pos_nonneg; lia).
  pose proof (Z.mul_div_le mx (2 ^ k1) P1) as A1.
  pose proof (Z.mul_succ_div_gt mx (2 ^ k1) P1) as A2.
  pose proof (Z.mul_div_le mr (2 ^ k2) P2) as B1.
  pose proof (Z.mul_succ_div_gt mr (2 ^ k2) P2) as B2.
  rewrite <- Hm1 in A1, A2. rewrite <- Hm2 in B1, B2.
  split.
  - set (a := shr_m mrs1) in *. set (P := 2 ^ k1) in *. set (Q := 2 ^ k2) in *.
    clearbody a P Q mr. clear - A1 A2 B1 B2 Hr P1 P2. nia.
  - intros -> [t Ht].
    assert (Hd1 : (2 ^ k1 | mx)).
    { exists (t * 2 ^ k2). rewrite Ht. ring. }
    specialize (Hx1 Hd1). rewrite E1 in Hx1. cbn [fst] in Hx1.
    assert (Hmr1 : mr = mx / 2 ^ k1) by (unfold mr; rewrite Hx1; reflexivity).
    assert (Hmr2 : mr = t * 2 ^ k2).
    { rewrite Hmr1, Ht. replace (t * (2 ^ k1 * 2 ^ k2)) with (t * 2 ^ k2 * 2 ^ k1) by ring.
      apply Z.div_mul. lia. }
    assert (Hm2' : Z.pos m2 = t) by (rewrite Hm2, Hmr2; apply Z.div_mul; lia).
    rewrite Hm2', Ht. reflexivity.
Qed.

(** *** Values *)

Lemma pow2_pos (e : Z) : (0 < pow2 e)%Q.
Proof. apply Qpower_0_lt. reflexivity. Qed.

Lemma pow2_add (a b : Z) : (pow2 (a + b) == pow2 a * pow2 b)%Q.
Proof. apply Qpower_plus. discriminate. Qed.

Lemma pow2_Z (k : Z) : 0 <= k -> (pow2 k == inject_Z (2 ^ k))%Q.
Proof. intros H. unfold pow2. rewrite Zpower_Qpower by assumption. reflexivity. Qed.

Lemma pow2_le (a b : Z) : a <= b -> (pow2 a <= pow2 b)%Q.
Proof. intros H. apply Qpower_le_compat_l; [assumption|discriminate]. Qed.

Lemma pow2_shift (e k : Z) : 0 <= k -> (pow2 (e + k) == pow2 e * inject_Z (2 ^ k))%Q.
Proof. intros H. rewrite pow2_add, (pow2_Z k) by assumption. reflexivity. Qed.

Lemma mag_pos (s : bool) (m : positive) (e : Z) : (0 < mag (S754_finite s m e))%Q.
Proof.
  cbn. apply Qmult_lt_0_compat; [|apply pow2_pos].
  change 0%Q with (inject_Z 0). rewrite <- Zlt_Qlt. lia.
Qed.

Lemma sval_mag (s : bool) (m : positive) (e : Z) :
  (sval (S754_finite s m e) == if s then - mag (S754_finite s m e) else mag (S754_finite s m e))%Q.
Proof.
  cbn. destruct s; cbn [cond_Zopp].
  - change (IntDef.Z.opp (Z.pos m)) with (- Z.pos m). rewrite inject_Z_opp. ring.
  - reflexivity.
Qed.

(** *** Validity *)

Lemma valid_finite (s : bool) (m : positive) (e : Z) :
  valid_binary (S754_finite s m e) = true ->
  -1074 <= e <= 971 /\ Z.pos m < 2 ^ 53 /\ (e = -1074 \/ 2 ^ 52 <= Z.pos m).
Proof.
  cbn [SpecFloat.valid_binary]. unfold bounded, canonical_mantissa, fexp, SpecFloat.emin.
  std. intros H. apply andb_prop in H as [H1 H2].
  apply Z.eqb_eq in H1. apply Z.leb_le in H2.
  change (3 - emax - prec) with (-1074) in H1. change (emax - prec) with 971 in H2.
  change prec with 53 in H1.
  pose proof (digits2_pos_bounds m) as [B1 B2].
  assert (Hd : Z.pos (digits2_pos m) <= 53) by lia.
  split; [lia|]. split.
  - eapply Z.lt_le_trans; [exact B2|]. apply Z.pow_le_mono_r; lia.
  - destruct (Z.eq_dec e (-1074)) as [He|He]; [now left|right].
    assert (Hd' : Z.pos (digits2_pos m) = 53) by lia.
    rewrite Hd' in B1. exact B1.
Qed.

(** Of a valid finite double: its last place is at most 2^-52 of it, unless
    it is subnormal. *)
Lemma valid_ulp (s : bool) (m : positive) (e : Z) :
  valid_binary (S754_finite s m e) = true ->
  e <> -1074 ->
  (pow2 e <= u52 * mag (S754_finite s m e))%Q.
Proof.
  intros Hv He. destruct (valid_finite _ _ _ Hv) as (_ & _ & [H|H]); [contradiction|].
  cbn [mag]. pose proof (pow2_pos e) as Hp.
  assert (Hm : (inject_Z (2 ^ 52) <= inject_Z (Z.pos m))%Q) by now rewrite <- Zle_Qle.
  change (inject_Z (2 ^ 52)) with (4503599627370496%Q) in Hm.
  unfold u52. change (2 ^ 52)%positive with 4503599627370496%positive.
  set (P := pow2 e) in *. set (M := inject_Z (Z.pos m)) in *.
  clearbody P M. nra.
Qed.

Lemma valid_subnormal_small (s : bool) (m : positive) (e : Z) :
  valid_binary (S754_finite s m e) = true ->
  e = -1074 ->
  (mag (S754_finite s m e) < 1 # 4)%Q.
Proof.
  intros Hv ->. destruct (valid_finite _ _ _ Hv) as (_ & Hm & _).
  cbn [mag].
  assert (H : (inject_Z (Z.pos m) < inject_Z (2 ^ 53))%Q) by now rewrite <- Zlt_Qlt.
  assert (Hp : (inject_Z (2 ^ 53) * pow2 (-1074) < 1 # 4)%Q) by reflexivity.
  pose proof (pow2_pos (-1074)) as Hpos.
  set (P := pow2 (-1074)) in *. set (M := inject_Z (Z.pos m)) in *.
  set (T := inject_Z (2 ^ 53)) in *. clearbody P M T. nra.
Qed.

(** *** Rounding, at the level of values *)

Lemma scale_pow2 (z e k : Z) :
  0 <= k -> (inject_Z (z * 2 ^ k) * pow2 e == inject_Z z * pow2 (e + k))%Q.
Proof.
  intros H. rewrite pow2_shift by assumption. rewrite inject_Z_mult. ring.
Qed.

Lemma inject_Z_pred (z : Z) : (inject_Z (z - 1) == inject_Z z - 1)%Q.
Proof. unfold Z.sub. rewrite inject_Z_plus. reflexivity. Qed.

Lemma inject_Z_succ (z : Z) : (inject_Z (z + 1) == inject_Z z + 1)%Q.
Proof. rewrite inject_Z_plus. reflexivity. Qed.

(** The same in values: a finite result of [binary_round_aux] is within
    one unit of its last place of the value given. *)
Lemma BRA_value (s : bool) (mx ex : Z) (lx : location)
      (s' : bool) (m' : positive) (e' : Z) :
  0 <= mx ->
  binary_round_aux prec emax s mx ex lx = S754_finite s' m' e' ->
  s' = s /\ ex <= e' /\
  (inject_Z (Z.pos m' - 1) * pow2 e' <= inject_Z mx * pow2 ex)%Q /\
  (inject_Z mx * pow2 ex < inject_Z (Z.pos m' + 1) * pow2 e')%Q /\
  (lx = loc_Exact -> (2 ^ (e' - ex) | mx) ->
   (inject_Z (Z.pos m') * pow2 e' == inject_Z mx * pow2 ex)%Q).
Proof.
  intros Hmx H. apply BRA_finite in H as (Hs & He & _ & (Hlo & Hhi) & Hexact); [|assumption].
  split; [assumption|]. split; [assumption|].
  assert (Hk : 0 <= e' - ex) by lia.
  pose proof (pow2_pos ex) as Hp.
  assert (Hkey : forall z, (inject_Z z * pow2 e' == inject_Z (z * 2 ^ (e' - ex)) * pow2 ex)%Q).
  { intros z. rewrite scale_pow2 by assumption. now replace (ex + (e' - ex)) with e' by lia. }
  rewrite !Hkey.
  split; [|split].
  - apply Qmult_le_compat_r; [|now apply Qlt_le_weak]. now rewrite <- Zle_Qle.
  - apply Qmult_lt_compat_r; [assumption|]. now rewrite <- Zlt_Qlt.
  - intros Hl Hd. now rewrite (Hexact Hl Hd).
Qed.

Lemma iter_xO (d : positive) (m : positive) :
  Z.pos (Pos.iter xO m d) = Z.pos m * 2 ^ Z.pos d /\
  digits2_pos (Pos.iter xO m d) = (digits2_pos m + d)%positive.
Proof.
  induction d as [|d IH] using Pos.peano_ind.
  - cbn. split; [lia|]. now rewrite Pos.add_1_r.
  - rewrite Pos.iter_succ. destruct IH as [IH1 IH2]. split.
    + rewrite Pos2Z.inj_xO, IH1, Pos2Z.inj_succ, Z.pow_succ_r by lia. lia.
    + cbn [digits2_pos]. rewrite IH2. lia.
Qed.

(** [shl_align] lowers the exponent to the one asked for, if that is
    lower, and keeps the value. *)
Lemma shl_align_spec (m : positive) (e e' : Z) :
  snd (shl_align m e e') = Z.min e e' /\
  Z.pos (fst (shl_align m e e')) = Z.pos m * 2 ^ (e - Z.min e e') /\
  Z.pos (digits2_pos (fst (shl_align m e e'))) + snd (shl_align m e e')
  = Z.pos (digits2_pos m) + e.
Proof.
  unfold shl_align. std. destruct (e' - e) as [|p|p] eqn:E; cbn [fst snd].
  - rewrite Z.min_l by lia. rewrite Z.sub_diag. cbn. split; [|split]; lia.
  - rewrite Z.min_l by lia. rewrite Z.sub_diag. cbn. split; [|split]; lia.
  - rewrite Z.min_r by lia. destruct (iter_xO p m) as [H1 H2].
    rewrite H1, H2. replace (e - e') with (Z.pos p) by lia.
    split; [|split]; lia.
Qed.

(** One rounding: a finite result is within the relative distance [u52] of
    the exact value. *)
Lemma binary_round_value (s : bool) (m : positive) (e : Z)
      (s' : bool) (m' : positive) (e' : Z) :
  -1074 <= e ->
  valid_binary (S754_finite s' m' e') = true ->
  binary_round prec emax s m e = S754_finite s' m' e' ->
  s' = s /\
  (mag (S754_finite s' m' e') * (1 - u52) <= inject_Z (Z.pos m) * pow2 e)%Q /\
  (inject_Z (Z.pos m) * pow2 e <= mag (S754_finite s' m' e') * (1 + u52))%Q.
Proof.
  intros He Hv. unfold binary_round.
  destruct (shl_align_spec m e (fexp prec emax (Z.pos (digits2_pos m) + e)))
    as (Hz & Hmz & _).
  std.
  destruct (shl_align m e (fexp prec emax (Z.pos (digits2_pos m) + e))) as [mz ez].
  cbn [fst snd] in Hz, Hmz.
  assert (Hez : -1074 <= ez /\ ez <= e).
  { rewrite Hz. unfold fexp, SpecFloat.emin. std.
    change (3 - emax - prec) with (-1074). lia. }
  assert (Hval : (inject_Z (Z.pos mz) * pow2 ez == inject_Z (Z.pos m) * pow2 e)%Q).
  { rewrite Hmz, <- Hz. rewrite scale_pow2 by lia. now replace (ez + (e - ez)) with e by lia. }
  intros H. apply BRA_value in H as (Hs & Hle & Hlo & Hhi & Hex); [|lia].
  split; [assumption|]. rewrite <- Hval. clear Hval Hmz Hz.
  pose proof (mag_pos s' m' e') as Hpos.
  assert (Hu : (0 < u52)%Q) by reflexivity.
  destruct (Z.eq_dec e' ez) as [Heq|Hne].
  - assert (Hd : (2 ^ (e' - ez) | Z.pos mz)).
    { rewrite Heq, Z.sub_diag. exists (Z.pos mz). cbn. lia. }
    rewrite <- (Hex eq_refl Hd). cbn [mag] in *.
    set (V := (inject_Z (Z.pos m') * pow2 e')%Q) in *. clearbody V. split; nra.
  - assert (Hulp : (pow2 e' <= u52 * mag (S754_finite s' m' e'))%Q)
      by (apply valid_ulp; [assumption|lia]).
    cbn [mag] in *. rewrite inject_Z_pred in Hlo. rewrite inject_Z_succ in Hhi.
    set (V := (inject_Z (Z.pos m') * pow2 e')%Q) in *.
    set (E := (inject_Z (Z.pos mz) * pow2 ez)%Q) in *.
    set (P := pow2 e') in *.
    assert (Hlo' : (V - P <= E)%Q) by (unfold V; lra).
    assert (Hhi' : (E < V + P)%Q) by (unfold V; lra).
    clearbody V E P. split; nra.
Qed.

(** *** Subtraction *)

Lemma cond_Zopp_mul (s : bool) (a b : Z) : cond_Zopp s (a * b) = cond_Zopp s a * b.
Proof. destruct s; cbn [cond_Zopp]; std; lia. Qed.

Lemma aligned_value (s : bool) (m : positive) (e ez : Z) :
  ez <= e ->
  (inject_Z (cond_Zopp s (Z.pos (fst (shl_align m e ez)))) * pow2 ez
   == sval (S754_finite s m e))%Q.
Proof.
  intros H. destruct (shl_align_spec m e ez) as (_ & Hm & _).
  rewrite Hm, Z.min_r by assumption. rewrite cond_Zopp_mul.
  rewrite scale_pow2 by lia. cbn [sval]. now replace (ez + (e - ez)) with e by lia.
Qed.

(** The difference of two ordinary doubles, the second one not above the
    first: a finite result is not negative and within [u52] of the exact
    difference. *)
Lemma SFsub_value (x y : spec_float) :
  valid_binary x = true -> valid_binary y = true ->
  ordinary x -> ordinary y ->
  (sval y <= sval x)%Q ->
  valid_binary (SF64sub x y) = true ->
  match SF64sub x y with
  | S754_finite s m e =>
      s = false /\
      (mag (S754_finite s m e) * (1 - u52) <= sval x - sval y)%Q /\
      (sval x - sval y <= mag (S754_finite s m e) * (1 + u52))%Q
  | _ => True
  end.
Proof.
  intros Vx Vy Ox Oy Hle Vr.
  assert (Hu : (0 < u52)%Q) by reflexivity.
  destruct x as [sx|sx| |sx mx ex], y as [sy|sy| |sy my ey]; try contradiction.
  - now destruct sx, sy.
  - (* 0 - y *)
    cbn [SF64sub SFsub]. unfold SF64sub, SFsub.
    pose proof (mag_pos sy my ey) as Hp. pose proof (sval_mag sy my ey) as Hs.
    cbn [sval] in Hle. fold (sval (S754_finite sy my ey)) in Hle.
    destruct sy; cbn [negb].
    + split; [reflexivity|]. cbn [sval mag] in *. std.
      set (V := (inject_Z (Z.pos my) * pow2 ey)%Q) in *.
      set (W := (inject_Z (- Z.pos my) * pow2 ey)%Q) in *. clearbody V W. split; nra.
    + exfalso. cbn [sval mag cond_Zopp] in *. lra.
  - (* x - 0 *)
    unfold SF64sub, SFsub.
    pose proof (mag_pos sx mx ex) as Hp. pose proof (sval_mag sx mx ex) as Hs.
    cbn [sval] in Hle. fold (sval (S754_finite sx mx ex)) in Hle.
    destruct sx.
    + exfalso. cbn [sval mag cond_Zopp] in *. std.
      set (V := (inject_Z (Z.pos mx) * pow2 ex)%Q) in *.
      set (W := (inject_Z (- Z.pos mx) * pow2 ex)%Q) in *. clearbody V W. lra.
    + split; [reflexivity|]. cbn [sval mag cond_Zopp] in *.
      set (V := (inject_Z (Z.pos mx) * pow2 ex)%Q) in *. clearbody V. split; nra.
  - (* finite - finite *)
    destruct (valid_finite _ _ _ Vx) as (Hex & _). destruct (valid_finite _ _ _ Vy) as (Hey & _).
    unfold SF64sub, SFsub in *. std.
    set (ez := Z.min ex ey) in *.
    set (D := cond_Zopp sx (Z.pos (fst (shl_align mx ex ez)))
              - cond_Zopp sy (Z.pos (fst (shl_align my ey ez)))) in *.
    assert (HD : (inject_Z D * pow2 ez
                  == sval (S754_finite sx mx ex) - sval (S754_finite sy my ey))%Q).
    { unfold D, Z.sub. rewrite inject_Z_plus, inject_Z_opp.
      rewrite <- (aligned_value sx mx ex ez), <- (aligned_value sy my ey ez) by (unfold ez; lia).
      ring. }
    assert (HD0 : 0 <= D).
    { pose proof (pow2_pos ez) as Hp.
      assert (H0 : (0 <= inject_Z D * pow2 ez)%Q) by (rewrite HD; lra).
      destruct (Z.lt_ge_cases D 0) as [Hneg|]; [exfalso|assumption].
      assert (Hq : (inject_Z D < 0)%Q) by (change 0%Q with (inject_Z 0); now rewrite <- Zlt_Qlt).
      set (V := inject_Z D) in *. set (P := pow2 ez) in *. clearbody V P. nra. }
    clearbody D.
    destruct D as [|pD|pD]; [exact I| |lia].
    cbn [binary_normalize] in *.
    destruct (binary_round prec emax false pD ez) as [| | |s m e] eqn:E; try exact I.
    apply binary_round_value in E as (Hs & Hlo & Hhi); [|unfold ez; lia|assumption].
    rewrite <- HD. auto.
Qed.

(** *** Multiplication by an integer *)

Lemma SFmul_value (A : Z) (sx : bool) (mx : positive) (ex : Z)
      (sy : bool) (my : positive) (ey : Z) :
  ex <= 0 ->
  Z.pos mx = A * 2 ^ (- ex) ->
  valid_binary (S754_finite sy my ey) = true ->
  valid_binary (SF64mul (S754_finite sx mx ex) (S754_finite sy my ey)) = true ->
  match SF64mul (S754_finite sx mx ex) (S754_finite sy my ey) with
  | S754_finite s m e =>
      s = xorb sx sy /\
      (mag (S754_finite s m e) * (1 - u52)
       <= inject_Z A * mag (S754_finite sy my ey))%Q /\
      (inject_Z A * mag (S754_finite sy my ey)
       <= mag (S754_finite s m e) * (1 + u52))%Q
  | _ => True
  end.
Proof.
  intros Hex Hmx Vy Vr. unfold SF64mul, SFmul in *. std.
  destruct (valid_finite _ _ _ Vy) as (Hey & _).
  assert (HX : (inject_Z (Z.pos (mx * my)) * pow2 (ex + ey)
                == inject_Z A * mag (S754_finite sy my ey))%Q).
  { cbn [mag]. rewrite Pos2Z.inj_mul, Hmx, pow2_add, !inject_Z_mult.
    assert (H1 : (inject_Z (2 ^ (- ex)) * pow2 ex == 1)%Q).
    { rewrite <- (Qmult_1_l (pow2 ex)) at 1. rewrite Qmult_assoc.
      setoid_replace (inject_Z (2 ^ (- ex)) * 1)%Q with (inject_Z (1 * 2 ^ (- ex))) by (rewrite inject_Z_mult; ring).
      rewrite scale_pow2 by lia. replace (ex + - ex) with 0 by lia. reflexivity. }
    setoid_replace (inject_Z A * inject_Z (2 ^ (- ex)) * inject_Z (Z.pos my) * (pow2 ex * pow2 ey))%Q
      with (inject_Z A * (inject_Z (Z.pos my) * pow2 ey) * (inject_Z (2 ^ (- ex)) * pow2 ex))%Q by ring.
    rewrite H1. ring. }
  destruct (binary_round_aux prec emax (xorb sx sy) (Z.pos (mx * my)) (ex + ey) loc_Exact)
    as [| | |s m e] eqn:E; try exact I.
  apply BRA_value in E as (Hs & Hle & Hlo & Hhi & Hexact); [|lia].
  split; [assumption|]. rewrite <- HX. clear HX.
  pose proof (mag_pos s m e) as Hpos.
  assert (Hu : (0 < u52)%Q) by reflexivity.
  destruct (Z.eq_dec e (-1074)) as [Heq|Hne].
  - assert (Hd : (2 ^ (e - (ex + ey)) | Z.pos (mx * my))).
    { exists (A * Z.pos my * 2 ^ (- ex - (e - (ex + ey)))).
      rewrite Pos2Z.inj_mul, Hmx.
      replace (- ex) with ((- ex - (e - (ex + ey))) + (e - (ex + ey))) at 1 by lia.
      rewrite Z.pow_add_r by lia. ring. }
    rewrite <- (Hexact eq_refl Hd). cbn [mag] in *.
    set (V := (inject_Z (Z.pos m) * pow2 e)%Q) in *. clearbody V. split; nra.
  - assert (Hulp : (pow2 e <= u52 * mag (S754_finite s m e))%Q)
      by (apply valid_ulp; assumption).
    cbn [mag] in *. rewrite inject_Z_pred in Hlo. rewrite inject_Z_succ in Hhi.
    set (V := (inject_Z (Z.pos m) * pow2 e)%Q) in *.
    set (X := (inject_Z (Z.pos (mx * my)) * pow2 (ex + ey))%Q) in *.
    set (P := pow2 e) in *.
    assert (Hlo' : (V - P <= X)%Q) by (unfold V; lra).
    assert (Hhi' : (X < V + P)%Q) by (unfold V; lra).
    clearbody V X P. split; nra.
Qed.

(** *** Division *)

Lemma SFdiv_value (sx : bool) (mx : positive) (ex : Z)
      (sy : bool) (my : positive) (ey : Z) :
  valid_binary (SF64div (S754_finite sx mx ex) (S754_finite sy my ey)) = true ->
  match SF64div (S754_finite sx mx ex) (S754_finite sy my ey) with
  | S754_finite s m e =>
      s = xorb sx sy /\
      ((mag (S754_finite s m e) * (1 - u52) * mag (S754_finite sy my ey)
        <= mag (S754_finite sx mx ex))%Q \/
       (mag (S754_finite s m e) < 1 # 4)%Q)
  | _ => True
  end.
Proof.
  intros Vr. unfold SF64div, SFdiv, SFdiv_core_binary in *. std.
  set (e' := Z.min (fexp prec emax (Zdigits2 (Z.pos mx) + ex - (Zdigits2 (Z.pos my) + ey)))
                   (ex - ey)) in *.
  set (sh := ex - ey - e') in *.
  assert (Hsh : 0 <= sh) by (unfold sh, e'; lia).
  set (m' := match sh with
             | Z.pos _ => Z.shiftl (Z.pos mx) sh
             | Z0 => Z.pos mx
             | Z.neg _ => 0
             end) in *.
  assert (Hm' : m' = Z.pos mx * 2 ^ sh).
  { unfold m'. destruct sh as [|p|p] eqn:E; [cbn; lia| |lia].
    rewrite Z.shiftl_mul_pow2 by lia. reflexivity. }
  pose proof (Z_div_mod m' (Z.pos my) ltac:(lia)) as Hdiv.
  destruct (Z.div_eucl m' (Z.pos my)) as [q r].
  destruct Hdiv as [Hq Hr].
  assert (P : 0 < 2 ^ sh) by (apply Z.pow_pos_nonneg; lia).
  assert (Hq0 : 0 <= q) by nia.
  assert (Hqm : q * Z.pos my <= Z.pos mx * 2 ^ sh) by nia.
  destruct (binary_round_aux prec emax (xorb sx sy) q e' (new_location (Z.pos my) r))
    as [| | |s m e] eqn:E; try exact I.
  apply BRA_value in E as (Hs & Hle & Hlo & _ & _); [|assumption].
  split; [assumption|].
  destruct (Z.eq_dec e (-1074)) as [Heq|Hne].
  - right. now apply valid_subnormal_small.
  - left.
    assert (Hulp : (pow2 e <= u52 * mag (S754_finite s m e))%Q)
      by (apply valid_ulp; assumption).
    assert (HX : (inject_Z q * pow2 e' * mag (S754_finite sy my ey)
                  <= mag (S754_finite sx mx ex))%Q).
    { cbn [mag].
      setoid_replace (inject_Z q * pow2 e' * (inject_Z (Z.pos my) * pow2 ey))%Q
        with (inject_Z (q * Z.pos my) * pow2 (e' + ey))%Q
        by (rewrite inject_Z_mult, pow2_add; ring).
      replace ex with ((e' + ey) + sh) by (unfold sh; lia).
      rewrite <- (scale_pow2 (Z.pos mx) (e' + ey) sh Hsh).
      apply Qmult_le_compat_r; [now rewrite <- Zle_Qle|].
      apply Qlt_le_weak, pow2_pos. }
    pose proof (mag_pos sy my ey) as Hy. pose proof (mag_pos s m e) as Hpos.
    cbn [mag] in Hlo, Hulp, Hpos |- *. rewrite inject_Z_pred in Hlo.
    cbn [mag] in HX, Hy.
    set (V := (inject_Z (Z.pos m) * pow2 e)%Q) in *.
    set (Y := (inject_Z (Z.pos my) * pow2 ey)%Q) in *.
    set (X := (inject_Z (Z.pos mx) * pow2 ex)%Q) in *.
    set (Qv := (inject_Z q * pow2 e')%Q) in *.
    set (Pe := pow2 e) in *.
    assert (Hlo' : (V - Pe <= Qv)%Q) by (unfold V; lra).
    assert (Hu : (0 < u52)%Q) by reflexivity.
    clearbody V Y X Qv Pe. clear - Hlo' HX Hy Hulp Hpos Hu.
    assert (H1 : (V * (1 - u52) <= Qv)%Q) by lra.
    nra.
Qed.

(** *** Comparison *)

Lemma mag_lt_of_exponent (s1 s2 : bool) (m1 m2 : positive) (e1 e2 : Z) :
  valid_binary (S754_finite s1 m1 e1) = true ->
  valid_binary (S754_finite s2 m2 e2) = true ->
  e1 < e2 ->
  (mag (S754_finite s1 m1 e1) < mag (S754_finite s2 m2 e2))%Q.
Proof.
  intros V1 V2 He.
  destruct (valid_finite _ _ _ V1) as (He1 & Hm1 & _).
  destruct (valid_finite _ _ _ V2) as (_ & _ & [Hs|Hm2]); [lia|].
  cbn [mag].
  assert (A1 : (inject_Z (Z.pos m1) * pow2 e1 < inject_Z (2 ^ 53) * pow2 e1)%Q).
  { apply Qmult_lt_compat_r; [apply pow2_pos|]. now rewrite <- Zlt_Qlt. }
  assert (A2 : (inject_Z (2 ^ 52) * pow2 e2 <= inject_Z (Z.pos m2) * pow2 e2)%Q).
  { apply Qmult_le_compat_r; [now rewrite <- Zle_Qle|]. apply Qlt_le_weak, pow2_pos. }
  assert (A3 : (inject_Z (2 ^ 53) * pow2 e1 <= inject_Z (2 ^ 52) * pow2 e2)%Q).
  { rewrite (scale_pow2 1 e1 53), (scale_pow2 1 e2 52) by lia.
    apply Qmult_le_l; [reflexivity|]. apply pow2_le. lia. }
  eapply Qlt_le_trans; [exact A1|]. eapply Qle_trans; [exact A3|exact A2].
Qed.

Lemma mag_le_of_mantissa (s1 s2 : bool) (m1 m2 : positive) (e : Z) :
  (m1 <= m2)%positive ->
  (mag (S754_finite s1 m1 e) <= mag (S754_finite s2 m2 e))%Q.
Proof.
  intros H. cbn [mag]. apply Qmult_le_compat_r; [|apply Qlt_le_weak, pow2_pos].
  rewrite <- Zle_Qle. lia.
Qed.

(** [<=] on ordinary doubles is [<=] on their values. *)
Lemma SFleb_value (x y : spec_float) :
  valid_binary x = true -> valid_binary y = true ->
  ordinary x -> ordinary y ->
  SFleb x y = true ->
  (sval x <= sval y)%Q.
Proof.
  intros Vx Vy Ox Oy. unfold SFleb, SFcompare. std.
  destruct x as [sx|sx| |sx mx ex], y as [sy|sy| |sy my ey]; try contradiction.
  - intros _. cbn. lra.
  - pose proof (mag_pos sy my ey) as Hp. rewrite (sval_mag sy my ey).
    destruct sy; [discriminate|]. intros _. cbn [sval]. lra.
  - pose proof (mag_pos sx mx ex) as Hp. rewrite (sval_mag sx mx ex).
    destruct sx; [|discriminate]. intros _. cbn [sval]. lra.
  - pose proof (mag_pos sx mx ex) as Hpx. pose proof (mag_pos sy my ey) as Hpy.
    rewrite (sval_mag sx mx ex), (sval_mag sy my ey).
    destruct sx, sy; try discriminate.
    + (* both negative *)
      destruct (Z.compare_spec ex ey) as [->|Hlt|Hgt]; try discriminate.
      * destruct (Pos.compare_cont Eq mx my) eqn:E; try discriminate; intros _.
        -- apply Pos.compare_eq in E. subst. lra.
        -- pose proof (mag_le_of_mantissa true true my mx ey) as H.
           fold (Pos.compare mx my) in E. apply Pos.compare_gt_iff in E.
           specialize (H (Pos.lt_le_incl _ _ E)). lra.
      * intros _. pose proof (mag_lt_of_exponent _ _ _ _ _ _ Vy Vx Hgt). lra.
    + intros _. lra.
    + (* both positive *)
      destruct (Z.compare_spec ex ey) as [->|Hlt|Hgt]; try discriminate.
      * destruct (Pos.compare_cont Eq mx my) eqn:E; try discriminate; intros _.
        -- apply Pos.compare_eq in E. subst. lra.
        -- pose proof (mag_le_of_mantissa false false mx my ey) as H.
           fold (Pos.compare mx my) in E. apply Pos.compare_lt_iff in E.
           specialize (H (Pos.lt_le_incl _ _ E)). lra.
      * intros _. pose proof (mag_lt_of_exponent _ _ _ _ _ _ Vx Vy Hlt). lra.
Qed.

(** *** Conversion from int *)

Lemma BRA_noshift (s : bool) (m : positive) (e : Z) :
  fexp prec emax (Z.pos (digits2_pos m) + e) = e ->
  e <= 971 ->
  binary_round_aux prec emax s (Z.pos m) e loc_Exact = S754_finite s m e.
Proof.
  intros H He. unfold binary_round_aux, shr_fexp. cbn [Zdigits2]. std.
  rewrite H, Z.sub_diag.
  cbn [shr shr_record_of_loc shr_m loc_of_shr_record round_nearest_even Zdigits2].
  std. rewrite H, Z.sub_diag. cbn [shr shr_m].
  change (emax - prec) with 971. destruct (Z.leb_spec e 971); [reflexivity|lia].
Qed.

Lemma of_nonneg_spec (A : positive) :
  Z.pos A < 2 ^ 53 ->
  exists mx ex,
    binary_normalize prec emax (Z.pos A) 0 false = S754_finite false mx ex /\
    ex <= 0 /\ Z.pos mx = Z.pos A * 2 ^ (- ex).
Proof.
  intros HA. cbn [binary_normalize]. unfold binary_round.
  pose proof (digits2_pos_bounds A) as [B1 B2].
  assert (Hd : Z.pos (digits2_pos A) <= 53).
  { destruct (Z.le_gt_cases (Z.pos (digits2_pos A)) 53) as [|Hgt]; [assumption|exfalso].
    assert (2 ^ 53 <= 2 ^ (Z.pos (digits2_pos A) - 1)) by (apply Z.pow_le_mono_r; lia). lia. }
  assert (Hf : fexp prec emax (Z.pos (digits2_pos A) + 0) = Z.pos (digits2_pos A) - 53).
  { unfold fexp, SpecFloat.emin. std. change (3 - emax - prec) with (-1074).
    change prec with 53. lia. }
  std. rewrite Hf.
  destruct (shl_align_spec A 0 (Z.pos (digits2_pos A) - 53)) as (Hz & Hm & Hdig).
  destruct (shl_align A 0 (Z.pos (digits2_pos A) - 53)) as [mz ez]. cbn [fst snd] in *.
  rewrite Z.min_r in * by lia.
  exists mz, ez. split; [|split].
  - apply BRA_noshift; [|lia].
    rewrite Hdig. rewrite Hf. lia.
  - lia.
  - rewrite Hm. f_equal. f_equal. lia.
Qed.

(** The conversion of an [int] is exact: the double is [a] itself. *)
Lemma int_to_double_spec (a : Z) :
  - 2 ^ 53 < a < 2 ^ 53 ->
  a <> 0 ->
  exists mx ex,
    Prim2SF (int_to_double a) = S754_finite (a <? 0) mx ex /\
    ex <= 0 /\ Z.pos mx = Z.abs a * 2 ^ (- ex).
Proof.
  intros Ha H0. unfold int_to_double.
  assert (Hto : forall z, 0 <= z < 2 ^ 53 -> Uint63.to_Z (Uint63.of_Z z) = z).
  { intros z Hz. rewrite Uint63.of_Z_spec. apply Z.mod_small.
    change Uint63.wB with (2 ^ 63). split; [lia|].
    eapply Z.lt_trans; [apply Hz|]. reflexivity. }
  destruct (Z.ltb_spec a 0) as [Hneg|Hpos].
  - rewrite opp_spec, of_uint63_spec.
    change (Uint63Axioms.to_Z (Uint63.of_Z (- a))) with (Uint63.to_Z (Uint63.of_Z (- a))).
    rewrite Hto by lia.
    destruct a as [|p|p]; try lia. cbn [Z.opp].
    destruct (of_nonneg_spec p ltac:(lia)) as (mx & ex & E & Hex & Hm).
    rewrite E. exists mx, ex. cbn [SFopp negb]. auto.
  - rewrite of_uint63_spec.
    change (Uint63Axioms.to_Z (Uint63.of_Z a)) with (Uint63.to_Z (Uint63.of_Z a)).
    rewrite Hto by lia.
    destruct a as [|p|p]; try lia.
    destruct (of_nonneg_spec p ltac:(lia)) as (mx & ex & E & Hex & Hm).
    rewrite E. exists mx, ex. auto.
Qed.

(** *** Conversion to int *)

Lemma truncate_finite (s : bool) (m : positive) (e z : Z) :
  truncate (S754_finite s m e) = Some z ->
  exists t, z = (if s then - t else t) /\ 0 <= t /\
            (inject_Z t <= mag (S754_finite s m e))%Q /\
            (mag (S754_finite s m e) < inject_Z (t + 1))%Q.
Proof.
  unfold truncate. intros [= <-]. cbn [mag].
  destruct e as [|p|p].
  - exists (Z.pos m). rewrite Z.shiftl_0_r. split; [reflexivity|]. split; [lia|].
    change (pow2 0) with 1%Q. rewrite inject_Z_succ. split; lra.
  - exists (Z.pos m * 2 ^ Z.pos p). rewrite Z.shiftl_mul_pow2 by lia.
    split; [reflexivity|]. split; [lia|].
    rewrite (pow2_Z (Z.pos p)) by lia. rewrite inject_Z_succ, inject_Z_mult. split; lra.
  - exists (Z.pos m / 2 ^ Z.pos p). rewrite Z.shiftr_div_pow2 by lia.
    split; [reflexivity|].
    assert (P : 0 < 2 ^ Z.pos p) by (apply Z.pow_pos_nonneg; lia).
    split; [apply Z.div_pos; lia|].
    pose proof (Z.mul_div_le (Z.pos m) (2 ^ Z.pos p) P) as H.
    pose proof (Z.mul_succ_div_gt (Z.pos m) (2 ^ Z.pos p) P) as H'.
    set (t := Z.pos m / 2 ^ Z.pos p) in *.
    assert (Ht : forall z, (inject_Z z == inject_Z (z * 2 ^ Z.pos p) * pow2 (Z.neg p))%Q).
    { intros z. rewrite scale_pow2 by lia. replace (Z.neg p + Z.pos p) with 0 by lia.
      change (pow2 0) with 1%Q. ring. }
    rewrite (Ht t), (Ht (t + 1)). split.
    + apply Qmult_le_compat_r; [|apply Qlt_le_weak, pow2_pos]. rewrite <- Zle_Qle. lia.
    + apply Qmult_lt_compat_r; [apply pow2_pos|]. rewrite <- Zlt_Qlt. lia.
Qed.

(** *** What makes a result finite *)

Lemma SFdiv_finite_inv (x y : spec_float) (s : bool) (m : positive) (e : Z) :
  SF64div x y = S754_finite s m e ->
  exists sx mx ex sy my ey, x = S754_finite sx mx ex /\ y = S754_finite sy my ey.
Proof.
  destruct x as [| | |sx mx ex], y as [| | |sy my ey]; try discriminate.
  intros _. now exists sx, mx, ex, sy, my, ey.
Qed.

Lemma SFmul_finite_inv (x y : spec_float) (s : bool) (m : positive) (e : Z) :
  SF64mul x y = S754_finite s m e ->
  exists sx mx ex sy my ey, x = S754_finite sx mx ex /\ y = S754_finite sy my ey.
Proof.
  destruct x as [| | |sx mx ex], y as [| | |sy my ey]; try discriminate.
  intros _. now exists sx, mx, ex, sy, my, ey.
Qed.

Lemma SFsub_finite_inv (x y : spec_float) (s : bool) (m : positive) (e : Z) :
  SF64sub x y = S754_finite s m e -> ordinary x /\ ordinary y.
Proof.
  destruct x as [sx|sx| |sx mx ex], y as [sy|sy| |sy my ey]; cbn [ordinary];
    try (intros _; split; exact I); try discriminate;
    try (destruct sx, sy; discriminate); try (destruct sx; discriminate).
Qed.

(** *** The fill count stays within the width *)

Lemma magnitude_within (A t : Z) (vq vp vd vD Ed ED : Q) :
  1 <= A <= 2 ^ 31 ->
  0 <= t ->
  (inject_Z t <= vq)%Q ->
  (0 < vD)%Q -> (0 <= vd)%Q -> (0 <= vp)%Q ->
  (vd * (1 - u52) <= Ed)%Q ->
  (ED <= vD * (1 + u52))%Q ->
  (Ed <= ED)%Q ->
  (vp * (1 - u52) <= inject_Z A * vd)%Q ->
  ((vq * (1 - u52) * vD <= vp)%Q \/ (vq < 1 # 4)%Q) ->
  t <= A.
Proof.
  intros HA Ht Htq HD Hd Hp H1 H2 H3 H4 H5.
  destruct (Z.le_gt_cases t A) as [|Hgt]; [assumption|exfalso].
  assert (HtA : (inject_Z A + 1 <= inject_Z t)%Q).
  { rewrite <- inject_Z_succ, <- Zle_Qle. lia. }
  assert (HA1 : (1 <= inject_Z A)%Q) by (change 1%Q with (inject_Z 1); rewrite <- Zle_Qle; lia).
  assert (HA2 : (inject_Z A <= inject_Z (2 ^ 31))%Q) by (rewrite <- Zle_Qle; lia).
  change (inject_Z (2 ^ 31)) with (2147483648%Q) in HA2.
  set (a := inject_Z A) in *. set (tq := inject_Z t) in *. clearbody a tq.
  destruct H5 as [H5|H5]; [|lra].
  unfold u52 in *. change (2 ^ 52)%positive with 4503599627370496%positive in *.
  set (u := (1 # 4503599627370496)%Q) in *.
  assert (Hu : (u == 1 # 4503599627370496)%Q) by reflexivity.
  (* vp (1-u)^2 <= a (1+u) vD *)
  assert (S1 : (vp * (1 - u) * (1 - u) <= a * (1 + u) * vD)%Q).
  { assert (T1 : (vp * (1 - u) * (1 - u) <= a * vd * (1 - u))%Q) by nra.
    assert (T2 : (a * (vd * (1 - u)) <= a * Ed)%Q) by nra.
    assert (T3 : (a * Ed <= a * ED)%Q) by nra.
    assert (T4 : (a * ED <= a * (vD * (1 + u)))%Q) by nra.
    lra. }
  assert (S2 : (vq * (1 - u) * vD * ((1 - u) * (1 - u)) <= vp * ((1 - u) * (1 - u)))%Q) by nra.
  assert (S3 : (vq * ((1 - u) * (1 - u) * (1 - u)) * vD <= a * (1 + u) * vD)%Q) by lra.
  assert (S4 : (vq * ((1 - u) * (1 - u) * (1 - u)) <= a * (1 + u))%Q).
  { set (L := (vq * ((1 - u) * (1 - u) * (1 - u)))%Q) in *.
    set (R := (a * (1 + u))%Q) in *. clearbody L R.
    destruct (Qlt_le_dec R L) as [Hlt|]; [exfalso|assumption]. nra. }
  clear - S4 Htq HtA HA1 HA2. unfold u in S4. lra.
Qed.

Lemma int_to_double_zero : Prim2SF (int_to_double 0) = S754_zero false.
Proof. reflexivity. Qed.

(** Whatever the roundings do, for [min <= cur <= max] the fill count lies
    between zero and the remaining width, on either side of zero. *)
Theorem fill_count_between (a : Z) (cur min max : float) (nc : Z) :
  - 2 ^ 31 <= a <= 2 ^ 31 ->
  (min <=? cur)%float = true ->
  (cur <=? max)%float = true ->
  fill_count a cur min max = Some nc ->
  (0 <= a -> 0 <= nc <= a) /\ (a <= 0 -> a <= nc <= 0).
Proof.
  intros Ha Hmc HcM. unfold fill_count, double_to_int.
  pose proof (Prim2SF_valid cur) as Vc. pose proof (Prim2SF_valid min) as Vm.
  pose proof (Prim2SF_valid max) as VM.
  pose proof (Prim2SF_valid (cur - min)) as Vd.
  pose proof (Prim2SF_valid (max - min)) as VD.
  pose proof (Prim2SF_valid (int_to_double a * (cur - min))) as Vp.
  pose proof (Prim2SF_valid (fill_double a cur min max)) as Vq.
  unfold fill_double in *.
  rewrite leb_spec in Hmc, HcM.
  rewrite div_spec, mul_spec, !sub_spec in *.
  set (xc := Prim2SF cur) in *. set (xm := Prim2SF min) in *. set (xM := Prim2SF max) in *.
  set (xa := Prim2SF (int_to_double a)) in *.
  set (d := SF64sub xc xm) in *. set (D := SF64sub xM xm) in *.
  set (p := SF64mul xa d) in *. set (q := SF64div p D) in *.
  destruct (truncate q) as [z|] eqn:Et; [|discriminate].
  intros Hz. unfold int_checked in Hz. destruct (in_int z); [|discriminate].
  injection Hz as <-.
  destruct q as [sq|sq| |sq mq eq] eqn:Eq; try discriminate.
  - cbn in Et. injection Et as <-. lia.
  - (* a finite quotient: every operand is finite *)
    destruct (SFdiv_finite_inv _ _ _ _ _ Eq) as (sp & mp & ep & sD & mD & eD & Ep & ED).
    pose proof Ep as Ep'. unfold p in Ep'.
    destruct (SFmul_finite_inv _ _ _ _ _ Ep') as (sa & ma & ea & sd & md & ed & Ea & Ed).
    destruct (SFsub_finite_inv _ _ _ _ _ Ed) as [Oc Om].
    destruct (SFsub_finite_inv _ _ _ _ _ ED) as [OM _].
    assert (Ha0 : a <> 0).
    { intros ->. unfold xa in Ea. rewrite int_to_double_zero in Ea. discriminate. }
    destruct (int_to_double_spec a ltac:(lia) Ha0) as (ma' & ea' & Ea' & Hea & Hma).
    fold xa in Ea'. rewrite Ea in Ea'. injection Ea' as -> <- <-.
    (* the two differences *)
    pose proof (SFleb_value _ _ Vm Vc Om Oc Hmc) as Lmc.
    pose proof (SFleb_value _ _ Vc VM Oc OM HcM) as LcM.
    pose proof (SFsub_value xc xm Vc Vm Oc Om Lmc Vd) as Bd. fold d in Bd. rewrite Ed in Bd.
    destruct Bd as (-> & Bd1 & _).
    assert (LmM : (sval xm <= sval xM)%Q) by lra.
    pose proof (SFsub_value xM xm VM Vm OM Om LmM VD) as BD. fold D in BD. rewrite ED in BD.
    destruct BD as (-> & _ & BD2).
    (* the product *)
    assert (Vdd : valid_binary (S754_finite false md ed) = true) by (rewrite <- Ed; exact Vd).
    assert (VDD : valid_binary (S754_finite false mD eD) = true) by (rewrite <- ED; exact VD).
    assert (Ep2 : SF64mul (S754_finite (a <? 0) ma ea) (S754_finite false md ed)
                  = S754_finite sp mp ep) by (rewrite <- Ea, <- Ed; exact Ep).
    assert (Eq2 : SF64div (S754_finite sp mp ep) (S754_finite false mD eD)
                  = S754_finite sq mq eq) by (rewrite <- Ep, <- ED; exact Eq).
    rewrite Ep in Vp.
    pose proof (SFmul_value (Z.abs a) (a <? 0) ma ea false md ed Hea Hma Vdd) as Bp.
    rewrite Ep2 in Bp. specialize (Bp Vp). destruct Bp as (Hsp & Bp1 & _).
    (* the quotient *)
    pose proof (SFdiv_value sp mp ep false mD eD) as Bq.
    rewrite Eq2 in Bq. specialize (Bq Vq). destruct Bq as (Hsq & Bq).
    (* the truncation *)
    destruct (truncate_finite _ _ _ _ Et) as (t & Hzt & Ht0 & Htq & _).
    assert (HtA : t <= Z.abs a).
    { apply (magnitude_within (Z.abs a) t
               (mag (S754_finite sq mq eq)) (mag (S754_finite sp mp ep))
               (mag (S754_finite false md ed)) (mag (S754_finite false mD eD))
               (sval xc - sval xm) (sval xM - sval xm)); try assumption.
      - lia.
      - apply mag_pos.
      - apply Qlt_le_weak, mag_pos.
      - apply Qlt_le_weak, mag_pos.
      - lra. }
    rewrite Hsq, Hsp in Hzt. rewrite !xorb_false_r in Hzt.
    clear - Hzt Ht0 HtA Ha0.
    destruct (Z.ltb_spec a 0); subst z; lia.
Qed.

(** *** More on binary digits *)

Lemma Zdigits2_bounds (m : Z) :
  0 < m -> 2 ^ (Zdigits2 m - 1) <= m < 2 ^ Zdigits2 m.
Proof. destruct m as [|p|p]; try lia. intros _. cbn [Zdigits2]. apply digits2_pos_bounds. Qed.

Lemma Zdigits2_nonneg (m : Z) : 0 <= Zdigits2 m.
Proof. destruct m; cbn; lia. Qed.

Lemma Zdigits2_unique (m j : Z) :
  2 ^ (j - 1) <= m < 2 ^ j -> 0 < m -> Zdigits2 m = j.
Proof.
  intros [H1 H2] Hm. pose proof (Zdigits2_bounds m Hm) as [B1 B2].
  pose proof (Zdigits2_nonneg m) as Hd.
  assert (Hj : 0 <= j).
  { destruct (Z.le_gt_cases 0 j); [assumption|].
    rewrite (Z.pow_neg_r 2 j) in H2 by lia. lia. }
  destruct (Z.lt_trichotomy (Zdigits2 m) j) as [Hlt|[Heq|Hgt]]; [exfalso|assumption|exfalso].
  - assert (2 ^ Zdigits2 m <= 2 ^ (j - 1)) by (apply Z.pow_le_mono_r; lia). lia.
  - assert (2 ^ j <= 2 ^ (Zdigits2 m - 1)) by (apply Z.pow_le_mono_r; lia). lia.
Qed.

Lemma Zdigits2_le (m k : Z) : 0 <= k -> 0 <= m < 2 ^ k -> Zdigits2 m <= k.
Proof.
  intros Hk [H0 H]. destruct (Z.eq_dec m 0) as [->|Hne]; [cbn; lia|].
  pose proof (Zdigits2_bounds m ltac:(lia)) as [B1 _].
  destruct (Z.le_gt_cases (Zdigits2 m) k); [assumption|exfalso].
  assert (2 ^ k <= 2 ^ (Zdigits2 m - 1)) by (apply Z.pow_le_mono_r; lia). lia.
Qed.

Lemma Zdigits2_div (m k : Z) :
  0 <= k -> 2 ^ k <= m -> Zdigits2 (m / 2 ^ k) = Zdigits2 m - k.
Proof.
  intros Hk Hm.
  assert (P : 0 < 2 ^ k) by (apply Z.pow_pos_nonneg; lia).
  pose proof (Zdigits2_bounds m ltac:(lia)) as [B1 B2].
  assert (Hdk : k < Zdigits2 m).
  { destruct (Z.lt_ge_cases k (Zdigits2 m)); [assumption|exfalso].
    assert (2 ^ Zdigits2 m <= 2 ^ k) by (apply Z.pow_le_mono_r; lia). lia. }
  assert (Hq : 0 < m / 2 ^ k) by (apply Z.div_str_pos; lia).
  apply Zdigits2_unique; [|assumption]. split.
  - apply Z.div_le_lower_bound; [lia|].
    rewrite <- Z.pow_add_r by lia. now replace (k + (Zdigits2 m - k - 1)) with (Zdigits2 m - 1) by lia.
  - apply Z.div_lt_upper_bound; [lia|].
    rewrite <- Z.pow_add_r by lia. now replace (k + (Zdigits2 m - k)) with (Zdigits2 m) by lia.
Qed.

(** *** The anatomy of binary_round_aux *)

Lemma BRA_anatomy (s : bool) (mx ex : Z) (lx : location) :
  0 <= mx ->
  exists m1 mr m2 : Z,
    let k1 := shift_of prec emax mx ex in
    let k2 := shift_of prec emax mr (ex + k1) in
    m1 = mx / 2 ^ k1 /\
    m1 <= mr <= m1 + 1 /\
    m2 = mr / 2 ^ k2 /\
    binary_round_aux prec emax s mx ex lx
    = match m2 with
      | Z0 => S754_zero s
      | Z.pos m => if ex + k1 + k2 <=? 971 then S754_finite s m (ex + k1 + k2)
                   else S754_infinity s
      | Z.neg _ => S754_nan
      end.
Proof.
  intros Hmx. unfold binary_round_aux.
  destruct (shr_fexp_spec prec emax mx ex lx Hmx) as [Hm1 He1].
  destruct (shr_fexp prec emax mx ex lx) as [mrs1 e1]. cbn [fst snd] in Hm1, He1.
  set (mr := round_nearest_even (shr_m mrs1) (loc_of_shr_record mrs1)).
  pose proof (round_nearest_even_range (shr_m mrs1) (loc_of_shr_record mrs1)) as Hr.
  fold mr in Hr.
  assert (Hm1' : 0 <= shr_m mrs1).
  { rewrite Hm1. apply Z.div_pos; [lia|]. apply Z.pow_pos_nonneg; [lia|].
    unfold shift_of. lia. }
  assert (Hmr : 0 <= mr) by lia.
  destruct (shr_fexp_spec prec emax mr e1 loc_Exact Hmr) as [Hm2 He2].
  destruct (shr_fexp prec emax mr e1 loc_Exact) as [mrs2 e2]. cbn [fst snd] in Hm2, He2.
  exists (shr_m mrs1), mr, (shr_m mrs2). cbn zeta.
  rewrite <- He1. split; [assumption|]. split; [assumption|]. split; [assumption|].
  rewrite <- He2. std. reflexivity.
Qed.

Lemma fexp_value (x : Z) : fexp prec emax x = Z.max (x - 53) (-1074).
Proof. reflexivity. Qed.

(** A zero result means the exact value is below the least subnormal. *)
Lemma BRA_zero (s : bool) (mx ex : Z) (lx : location) (s' : bool) :
  0 <= mx ->
  binary_round_aux prec emax s mx ex lx = S754_zero s' ->
  (inject_Z mx * pow2 ex < pow2 (-1074))%Q.
Proof.
  intros Hmx H.
  destruct (BRA_anatomy s mx ex lx Hmx) as (m1 & mr & m2 & Hm1 & Hr & Hm2 & E).
  cbn zeta in *. rewrite E in H. clear E.
  set (k1 := shift_of prec emax mx ex) in *.
  set (k2 := shift_of prec emax mr (ex + k1)) in *.
  assert (Hk1 : 0 <= k1) by (unfold k1, shift_of; lia).
  assert (Hk2 : 0 <= k2) by (unfold k2, shift_of; lia).
  assert (P1 : 0 < 2 ^ k1) by (apply Z.pow_pos_nonneg; lia).
  assert (P2 : 0 < 2 ^ k2) by (apply Z.pow_pos_nonneg; lia).
  assert (Hm10 : 0 <= m1) by (rewrite Hm1; apply Z.div_pos; lia).
  destruct m2 as [|p|p]; [|destruct (_ <=? _); discriminate|discriminate].
  assert (Hmr : 0 <= mr < 2 ^ k2).
  { split; [lia|]. symmetry in Hm2. apply Z.div_small_iff in Hm2; lia. }
  pose proof (Z.mul_succ_div_gt mx (2 ^ k1) P1) as A2. rewrite <- Hm1 in A2.
  destruct (Z.eq_dec mx 0) as [->|Hmx0].
  { rewrite Qmult_0_l. apply pow2_pos. }
  assert (Hsmall : mx < 2 ^ (-1074 - ex) /\ ex <= -1074).
  { destruct (Z.eq_dec k2 0) as [Hk20|Hk20].
    - (* the first shift already gave zero *)
      rewrite Hk20 in Hmr. change (2 ^ 0) with 1 in Hmr.
      assert (m1 = 0) by lia. subst m1.
      assert (Hmxk : mx < 2 ^ k1) by lia.
      pose proof (Zdigits2_le mx k1 Hk1 ltac:(lia)) as Hd.
      assert (Hk1' : k1 <> 0).
      { intros Hz. rewrite Hz in Hmxk. change (2 ^ 0) with 1 in Hmxk. lia. }
      assert (Hk : k1 = -1074 - ex).
      { unfold k1, shift_of in *. rewrite fexp_value in *. lia. }
      rewrite Hk in *. split; [assumption|lia].
    - pose proof (Zdigits2_le mr k2 Hk2 Hmr) as Hd.
      assert (Hk : k2 = -1074 - (ex + k1)).
      { unfold k2, shift_of in *. rewrite fexp_value in *. lia. }
      split; [|lia].
      replace (-1074 - ex) with (k1 + k2) by lia. rewrite Z.pow_add_r by lia. nia. }
  destruct Hsmall as [Hs He].
  assert (Hq : (inject_Z mx < inject_Z (2 ^ (-1074 - ex)))%Q) by now rewrite <- Zlt_Qlt.
  assert (Hp : (pow2 (-1074) == inject_Z (2 ^ (-1074 - ex)) * pow2 ex)%Q).
  { rewrite <- (Z.mul_1_l (2 ^ _)), scale_pow2 by lia.
    replace (ex + (-1074 - ex)) with (-1074) by lia. ring. }
  rewrite Hp. apply Qmult_lt_compat_r; [apply pow2_pos|assumption].
Qed.

(** An infinite result of a normalised input means the exact value is at
    least (2^52 - 1) * 2^972. *)
Lemma BRA_infinity (s : bool) (mz ez : Z) (lx : location) (s' : bool) :
  0 < mz ->
  ez <= fexp prec emax (Zdigits2 mz + ez) ->
  binary_round_aux prec emax s mz ez lx = S754_infinity s' ->
  (inject_Z (2 ^ 52 - 1) * pow2 972 <= inject_Z mz * pow2 ez)%Q.
Proof.
  intros Hmz Hnorm H.
  destruct (BRA_anatomy s mz ez lx ltac:(lia)) as (m1 & mr & m2 & Hm1 & Hr & Hm2 & E).
  cbn zeta in *. rewrite E in H. clear E.
  set (k1 := shift_of prec emax mz ez) in *.
  set (k2 := shift_of prec emax mr (ez + k1)) in *.
  assert (Hk1 : 0 <= k1) by (unfold k1, shift_of; lia).
  assert (Hk2 : 0 <= k2) by (unfold k2, shift_of; lia).
  assert (P1 : 0 < 2 ^ k1) by (apply Z.pow_pos_nonneg; lia).
  assert (P2 : 0 < 2 ^ k2) by (apply Z.pow_pos_nonneg; lia).
  assert (Hm10 : 0 <= m1) by (rewrite Hm1; apply Z.div_pos; lia).
  destruct m2 as [|p|p]; try discriminate.
  destruct (Z.leb_spec (ez + k1 + k2) 971) as [|He2]; [discriminate|]. clear H.
  pose proof (Zdigits2_bounds mz Hmz) as [Bz1 Bz2].
  assert (Hk1v : k1 = fexp prec emax (Zdigits2 mz + ez) - ez) by (unfold k1, shift_of; lia).
  rewrite fexp_value in Hk1v, Hnorm.
  assert (Hbig : 2 ^ 52 <= Z.pos p).
  { destruct (Z.eq_dec k2 0) as [Hk20|Hk20].
    - rewrite Hk20 in *. change (2 ^ 0) with 1 in Hm2. rewrite Z.div_1_r in Hm2.
      assert (Hk : k1 = Zdigits2 mz - 53) by lia.
      assert (Hle : 2 ^ k1 <= mz).
      { eapply Z.le_trans; [|exact Bz1]. apply Z.pow_le_mono_r; lia. }
      pose proof (Zdigits2_div mz k1 Hk1 Hle) as Hd. rewrite <- Hm1 in Hd.
      assert (Hm1pos : 0 < m1) by (rewrite Hm1; apply Z.div_str_pos; lia).
      pose proof (Zdigits2_bounds m1 Hm1pos) as [B1 _].
      replace (Zdigits2 m1 - 1) with 52 in B1 by lia. lia.
    - assert (Hmrpos : 0 < mr).
      { destruct (Z.eq_dec mr 0) as [Hz|]; [|lia]. rewrite Hz in Hm2.
        rewrite Z.div_0_l in Hm2 by lia. discriminate. }
      pose proof (Zdigits2_bounds mr Hmrpos) as [Br1 Br2].
      assert (Hk : k2 = Zdigits2 mr - 53).
      { unfold k2, shift_of in *. rewrite fexp_value in *. lia. }
      assert (Hle : 2 ^ k2 <= mr).
      { eapply Z.le_trans; [|exact Br1]. apply Z.pow_le_mono_r; lia. }
      pose proof (Zdigits2_div mr k2 Hk2 Hle) as Hd. rewrite <- Hm2 in Hd.
      pose proof (Zdigits2_bounds (Z.pos p) ltac:(lia)) as [B1 _].
      replace (Zdigits2 (Z.pos p) - 1) with 52 in B1 by lia. exact B1. }
  pose proof (Z.mul_div_le mz (2 ^ k1) P1) as A1. rewrite <- Hm1 in A1.
  pose proof (Z.mul_div_le mr (2 ^ k2) P2) as B1. rewrite <- Hm2 in B1.
  assert (Hlow : (Z.pos p - 1) * 2 ^ (k1 + k2) <= mz).
  { rewrite Z.pow_add_r by lia. nia. }
  assert (Hq : (inject_Z ((Z.pos p - 1) * 2 ^ (k1 + k2)) * pow2 ez <= inject_Z mz * pow2 ez)%Q).
  { apply Qmult_le_compat_r; [now rewrite <- Zle_Qle|apply Qlt_le_weak, pow2_pos]. }
  rewrite scale_pow2 in Hq by lia.
  eapply Qle_trans; [|exact Hq].
  assert (H1 : (inject_Z (2 ^ 52 - 1) <= inject_Z (Z.pos p - 1))%Q) by (rewrite <- Zle_Qle; lia).
  assert (H2 : (pow2 972 <= pow2 (ez + (k1 + k2)))%Q) by (apply pow2_le; lia).
  assert (H3 : (0 <= inject_Z (2 ^ 52 - 1))%Q) by (change 0%Q with (inject_Z 0); rewrite <- Zle_Qle; lia).
  pose proof (pow2_pos 972) as H4.
  set (a := inject_Z (2 ^ 52 - 1)) in *. set (b := inject_Z (Z.pos p - 1)) in *.
  set (x := pow2 972) in *. set (y := pow2 (ez + (k1 + k2))) in *.
  clearbody a b x y. nra.
Qed.

Lemma binary_round_infinity (s : bool) (m : positive) (e : Z) (s' : bool) :
  binary_round prec emax s m e = S754_infinity s' ->
  (inject_Z (2 ^ 52 - 1) * pow2 972 <= inject_Z (Z.pos m) * pow2 e)%Q.
Proof.
  unfold binary_round.
  destruct (shl_align_spec m e (fexp prec emax (Z.pos (digits2_pos m) + e)))
    as (Hz & Hmz & Hdig).
  std.
  destruct (shl_align m e (fexp prec emax (Z.pos (digits2_pos m) + e))) as [mz ez].
  cbn [fst snd] in *.
  assert (Hval : (inject_Z (Z.pos mz) * pow2 ez == inject_Z (Z.pos m) * pow2 e)%Q).
  { rewrite Hmz, <- Hz. rewrite scale_pow2 by lia. now replace (ez + (e - ez)) with e by lia. }
  intros H. rewrite <- Hval. apply (BRA_infinity s (Z.pos mz) ez loc_Exact s'); [lia| |exact H].
  cbn [Zdigits2]. rewrite Hdig. lia.
Qed.

(** A difference that overflows is at least (2^52 - 1) * 2^972. *)
Lemma SFsub_infinity (x y : spec_float) (s : bool) :
  ordinary x -> ordinary y ->
  (sval y <= sval x)%Q ->
  SF64sub x y = S754_infinity s ->
  (inject_Z (2 ^ 52 - 1) * pow2 972 <= sval x - sval y)%Q.
Proof.
  intros Ox Oy Hle.
  destruct x as [sx|sx| |sx mx ex], y as [sy|sy| |sy my ey]; try contradiction;
    try discriminate; try (destruct sx, sy; discriminate).
  unfold SF64sub, SFsub. std.
  set (ez := Z.min ex ey) in *.
  set (D := cond_Zopp sx (Z.pos (fst (shl_align mx ex ez)))
            - cond_Zopp sy (Z.pos (fst (shl_align my ey ez)))) in *.
  assert (HD : (inject_Z D * pow2 ez
                == sval (S754_finite sx mx ex) - sval (S754_finite sy my ey))%Q).
  { unfold D, Z.sub. rewrite inject_Z_plus, inject_Z_opp.
    rewrite <- (aligned_value sx mx ex ez), <- (aligned_value sy my ey ez) by (unfold ez; lia).
    ring. }
  assert (HD0 : 0 <= D).
  { pose proof (pow2_pos ez) as Hp.
    assert (H0 : (0 <= inject_Z D * pow2 ez)%Q) by (rewrite HD; lra).
    destruct (Z.lt_ge_cases D 0) as [Hneg|]; [exfalso|assumption].
    assert (Hq : (inject_Z D < 0)%Q) by (change 0%Q with (inject_Z 0); now rewrite <- Zlt_Qlt).
    set (V := inject_Z D) in *. set (P := pow2 ez) in *. clearbody V P. nra. }
  rewrite <- HD. clearbody D.
  destruct D as [|pD|pD]; [discriminate| |lia].
  cbn [binary_normalize]. apply binary_round_infinity.
Qed.

(** *** Results that are zero *)

Lemma mag_ge_least (s : bool) (m : positive) (e : Z) :
  -1074 <= e -> (pow2 (-1074) <= mag (S754_finite s m e))%Q.
Proof.
  intros He. cbn [mag].
  assert (H1 : (1 <= inject_Z (Z.pos m))%Q) by (change 1%Q with (inject_Z 1); rewrite <- Zle_Qle; lia).
  pose proof (pow2_le (-1074) e He) as H2. pose proof (pow2_pos (-1074)) as H3.
  set (a := inject_Z (Z.pos m)) in *. set (x := pow2 (-1074)) in *. set (y := pow2 e) in *.
  clearbody a x y. nra.
Qed.

Lemma binary_round_not_zero (s : bool) (m : positive) (e : Z) (s' : bool) :
  -1074 <= e -> binary_round prec emax s m e <> S754_zero s'.
Proof.
  intros He H. unfold binary_round in H.
  destruct (shl_align_spec m e (fexp prec emax (Z.pos (digits2_pos m) + e)))
    as (Hz & Hmz & _).
  std.
  destruct (shl_align m e (fexp prec emax (Z.pos (digits2_pos m) + e))) as [mz ez].
  cbn [fst snd] in *.
  assert (Hez : -1074 <= ez) by (rewrite Hz, fexp_value; lia).
  apply BRA_zero in H; [|lia].
  pose proof (mag_ge_least s mz ez Hez) as Hm. cbn [mag] in Hm. lra.
Qed.

(** A difference that is a zero is exact: the operands have the same
    value. *)
Lemma SFsub_zero (x y : spec_float) (s : bool) :
  valid_binary x = true -> valid_binary y = true ->
  ordinary x -> ordinary y ->
  SF64sub x y = S754_zero s ->
  (sval x == sval y)%Q.
Proof.
  intros Vx Vy Ox Oy.
  destruct x as [sx|sx| |sx mx ex], y as [sy|sy| |sy my ey]; try contradiction;
    try discriminate; try (intros _; reflexivity).
  destruct (valid_finite _ _ _ Vx) as (Hex & _). destruct (valid_finite _ _ _ Vy) as (Hey & _).
  unfold SF64sub, SFsub. std.
  set (ez := Z.min ex ey) in *.
  set (D := cond_Zopp sx (Z.pos (fst (shl_align mx ex ez)))
            - cond_Zopp sy (Z.pos (fst (shl_align my ey ez)))) in *.
  assert (HD : (inject_Z D * pow2 ez
                == sval (S754_finite sx mx ex) - sval (S754_finite sy my ey))%Q).
  { unfold D, Z.sub. rewrite inject_Z_plus, inject_Z_opp.
    rewrite <- (aligned_value sx mx ex ez), <- (aligned_value sy my ey ez) by (unfold ez; lia).
    ring. }
  clearbody D. destruct D as [|pD|pD]; cbn [binary_normalize].
  - intros _. rewrite Qmult_0_l in HD. lra.
  - intros H. exfalso. revert H. apply binary_round_not_zero. unfold ez. lia.
  - intros H. exfalso. revert H. apply binary_round_not_zero. unfold ez. lia.
Qed.

Lemma int_product_value (A : Z) (mx : positive) (ex : Z) (my : positive) (ey : Z) :
  ex <= 0 ->
  Z.pos mx = A * 2 ^ (- ex) ->
  (inject_Z (Z.pos (mx * my)) * pow2 (ex + ey)
   == inject_Z A * (inject_Z (Z.pos my) * pow2 ey))%Q.
Proof.
  intros Hex Hmx. rewrite Pos2Z.inj_mul, Hmx, pow2_add, !inject_Z_mult.
  assert (H1 : (inject_Z (2 ^ (- ex)) * pow2 ex == 1)%Q).
  { rewrite <- (Z.mul_1_l (2 ^ _)), scale_pow2 by lia.
    replace (ex + - ex) with 0 by lia. reflexivity. }
  setoid_replace (inject_Z A * inject_Z (2 ^ (- ex)) * inject_Z (Z.pos my) * (pow2 ex * pow2 ey))%Q
    with (inject_Z A * (inject_Z (Z.pos my) * pow2 ey) * (inject_Z (2 ^ (- ex)) * pow2 ex))%Q by ring.
  rewrite H1. ring.
Qed.

(** The product of a nonzero integer and a finite double does not
    underflow to zero. *)
Lemma SFmul_not_zero (A : Z) (sx : bool) (mx : positive) (ex : Z)
      (sy : bool) (my : positive) (ey : Z) (s : bool) :
  ex <= 0 ->
  Z.pos mx = A * 2 ^ (- ex) ->
  valid_binary (S754_finite sy my ey) = true ->
  SF64mul (S754_finite sx mx ex) (S754_finite sy my ey) <> S754_zero s.
Proof.
  intros Hex Hmx Vy H. unfold SF64mul, SFmul in H. std.
  destruct (valid_finite _ _ _ Vy) as (Hey & _).
  apply BRA_zero in H; [|lia].
  rewrite (int_product_value A mx ex my ey Hex Hmx) in H.
  pose proof (mag_ge_least sy my ey ltac:(lia)) as Hm. cbn [mag] in Hm.
  assert (HA : 1 <= A).
  { destruct (Z.le_gt_cases 1 A); [assumption|exfalso].
    assert (0 < 2 ^ (- ex)) by (apply Z.pow_pos_nonneg; lia). nia. }
  assert (HAq : (1 <= inject_Z A)%Q) by (change 1%Q with (inject_Z 1); rewrite <- Zle_Qle; lia).
  pose proof (pow2_pos (-1074)) as Hp.
  set (a := inject_Z A) in *. set (v := (inject_Z (Z.pos my) * pow2 ey)%Q) in *.
  set (x := pow2 (-1074)) in *. clearbody a v x. nra.
Qed.

(** *** Division, from below *)

Lemma Zdigits2_mul_pow2 (m k : Z) :
  0 < m -> 0 <= k -> Zdigits2 (m * 2 ^ k) = Zdigits2 m + k.
Proof.
  intros Hm Hk. pose proof (Zdigits2_bounds m Hm) as [B1 B2].
  assert (P : 0 < 2 ^ k) by (apply Z.pow_pos_nonneg; lia).
  assert (Hd : 1 <= Zdigits2 m).
  { destruct m; cbn; lia. }
  apply Zdigits2_unique; [|nia]. split.
  - replace (Zdigits2 m + k - 1) with ((Zdigits2 m - 1) + k) by lia.
    rewrite Z.pow_add_r by lia. nia.
  - rewrite Z.pow_add_r by lia. nia.
Qed.

(** The quotient of two finite doubles, from below: the dividend is at
    most the result, taken up by [u52] and by the least double, times the
    divisor. *)
Lemma SFdiv_lower (sx : bool) (mx : positive) (ex : Z)
      (sy : bool) (my : positive) (ey : Z) :
  valid_binary (SF64div (S754_finite sx mx ex) (S754_finite sy my ey)) = true ->
  match SF64div (S754_finite sx mx ex) (S754_finite sy my ey) with
  | S754_finite s m e =>
      (mag (S754_finite sx mx ex)
       <= (mag (S754_finite s m e) * (1 + u52) + least) * mag (S754_finite sy my ey))%Q
  | S754_zero _ =>
      (mag (S754_finite sx mx ex) <= 2 * least * mag (S754_finite sy my ey))%Q
  | _ => True
  end.
Proof.
  intros Vr. unfold SF64div, SFdiv, SFdiv_core_binary in *. std.
  set (d1 := Zdigits2 (Z.pos mx)) in *. set (d2 := Zdigits2 (Z.pos my)) in *.
  set (e' := Z.min (fexp prec emax (d1 + ex - (d2 + ey))) (ex - ey)) in *.
  set (sh := ex - ey - e') in *.
  assert (Hsh : 0 <= sh) by (unfold sh, e'; lia).
  set (m' := match sh with
             | Z.pos _ => Z.shiftl (Z.pos mx) sh
             | Z0 => Z.pos mx
             | Z.neg _ => 0
             end) in *.
  assert (Hm' : m' = Z.pos mx * 2 ^ sh).
  { unfold m'. destruct sh as [|p|p] eqn:E; [cbn; lia| |lia].
    rewrite Z.shiftl_mul_pow2 by lia. reflexivity. }
  pose proof (Z_div_mod m' (Z.pos my) ltac:(lia)) as Hdiv.
  destruct (Z.div_eucl m' (Z.pos my)) as [q r].
  destruct Hdiv as [Hq Hr].
  assert (P : 0 < 2 ^ sh) by (apply Z.pow_pos_nonneg; lia).
  assert (Hq0 : 0 <= q) by nia.
  assert (Hqm : Z.pos mx * 2 ^ sh < (q + 1) * Z.pos my) by nia.
  (* the dividend, against (q + 1) * 2^e' times the divisor *)
  assert (HX : (mag (S754_finite sx mx ex)
                <= inject_Z (q + 1) * pow2 e' * mag (S754_finite sy my ey))%Q).
  { cbn [mag].
    setoid_replace (inject_Z (q + 1) * pow2 e' * (inject_Z (Z.pos my) * pow2 ey))%Q
      with (inject_Z ((q + 1) * Z.pos my) * pow2 (e' + ey))%Q
      by (rewrite inject_Z_mult, pow2_add; ring).
    replace ex with ((e' + ey) + sh) at 1 by (unfold sh; lia).
    rewrite <- (scale_pow2 (Z.pos mx) (e' + ey) sh Hsh).
    apply Qmult_le_compat_r; [rewrite <- Zle_Qle; lia|].
    apply Qlt_le_weak, pow2_pos. }
  pose proof (mag_pos sy my ey) as Hy.
  destruct (binary_round_aux prec emax (xorb sx sy) q e' (new_location (Z.pos my) r))
    as [sz| | |s m e] eqn:E; try exact I.
  - (* a zero quotient *)
    apply BRA_zero in E; [|assumption]. fold least in E.
    assert (Hq1 : (inject_Z (q + 1) * pow2 e' <= 2 * least)%Q).
    { destruct (Z.eq_dec q 0) as [->|Hq1].
      - (* the dividend is below the divisor: the exponent is the least one *)
        cbn [Z.add]. change (inject_Z 1) with 1%Q. rewrite Qmult_1_l.
        assert (He' : e' <= -1074).
        { assert (Hdm : Zdigits2 m' = d1 + sh)
            by (rewrite Hm'; apply Zdigits2_mul_pow2; lia).
          pose proof (Zdigits2_bounds (Z.pos my) ltac:(lia)) as [_ B2]. fold d2 in B2.
          assert (Hd2 : 0 <= d2) by apply Zdigits2_nonneg.
          pose proof (Zdigits2_le m' d2 Hd2 ltac:(lia)) as Hle.
          unfold sh, e' in *. rewrite fexp_value in *. lia. }
        pose proof (pow2_le e' (-1074) He') as Hp. pose proof (pow2_pos (-1074)) as Hl.
        unfold least. lra.
      - assert (Hq2 : (inject_Z (q + 1) <= 2 * inject_Z q)%Q).
        { change 2%Q with (inject_Z 2). rewrite <- inject_Z_mult, <- Zle_Qle. lia. }
        pose proof (pow2_pos e') as Hp.
        set (a := inject_Z (q + 1)) in *. set (b := inject_Z q) in *.
        set (x := pow2 e') in *. clearbody a b x. nra. }
    set (a := (inject_Z (q + 1) * pow2 e')%Q) in *.
    set (X := mag (S754_finite sx mx ex)) in *. set (Y := mag (S754_finite sy my ey)) in *.
    clearbody a X Y. nra.
  - pose proof E as E'.
    apply BRA_finite in E as (Hs & Hle & _ & (_ & Hhi) & _); [|assumption].
    assert (Hq1 : (inject_Z (q + 1) * pow2 e' <= inject_Z (Z.pos m + 1) * pow2 e)%Q).
    { replace e with (e' + (e - e')) by lia. rewrite <- scale_pow2 by lia.
      apply Qmult_le_compat_r; [rewrite <- Zle_Qle; lia|apply Qlt_le_weak, pow2_pos]. }
    assert (Hulp : (pow2 e <= u52 * mag (S754_finite s m e) + least)%Q).
    { pose proof (mag_pos s m e) as Hpos. assert (Hu : (0 < u52)%Q) by reflexivity.
      destruct (Z.eq_dec e (-1074)) as [->|Hne].
      - unfold least. nra.
      - pose proof (valid_ulp s m e Vr Hne). pose proof (pow2_pos (-1074)). unfold least. lra. }
    cbn [mag] in Hulp |- *. rewrite (inject_Z_succ (Z.pos m)) in Hq1.
    cbn [mag] in HX, Hy.
    set (V := (inject_Z (Z.pos m) * pow2 e)%Q) in *.
    set (Y := (inject_Z (Z.pos my) * pow2 ey)%Q) in *.
    set (X := (inject_Z (Z.pos mx) * pow2 ex)%Q) in *.
    set (Qv := (inject_Z (q + 1) * pow2 e')%Q) in *.
    assert (Hq1' : (Qv <= V + pow2 e)%Q) by (unfold V; lra).
    set (Pe := pow2 e) in *.
    clearbody V Y X Qv Pe. nra.
Qed.

(** [SF_value] is [sval], in lowest terms, on the ordinary doubles. *)
Lemma SF_value_sval (x : spec_float) (v : Q) :
  SF_value x = Some v -> ordinary x /\ (v == sval x)%Q.
Proof.
  destruct x as [s|s| |s m e]; cbn [SF_value]; try discriminate.
  - intros [= <-]. split; [exact I|reflexivity].
  - intros [= <-]. split; [exact I|]. cbn [sval].
    assert (Ea : (if s then Z.neg m else Z.pos m) = cond_Zopp s (Z.pos m)) by now destruct s.
    rewrite Ea. set (a := cond_Zopp s (Z.pos m)). clearbody a.
    destruct e as [|p|p].
    + rewrite Z.mul_1_r. change (pow2 0) with 1%Q. ring.
    + rewrite inject_Z_mult, (pow2_Z (Z.pos p)) by lia. reflexivity.
    + rewrite (Qred_correct (a # 2 ^ p)), Qmake_Qdiv.
      change (Z.neg p) with (- Z.pos p). unfold pow2. rewrite Qpower_opp.
      fold (pow2 (Z.pos p)). rewrite (pow2_Z (Z.pos p)) by lia.
      rewrite Pos2Z.inj_pow. reflexivity.
Qed.

Lemma ordinary_value (x : spec_float) : ordinary x -> exists v, SF_value x = Some v.
Proof. destruct x; cbn; try contradiction; eauto. Qed.

(** *** Arithmetic of the three rounded operations *)

Lemma quotient_close (a vq vp vd vD Ed ED X eta : Q) :
  (0 <= a)%Q -> (a <= 2147483648)%Q ->
  (0 < vD)%Q -> (0 <= vq)%Q ->
  (0 <= eta)%Q -> (eta <= 1 # 16)%Q ->
  (vd * (1 - u52) <= Ed)%Q -> (Ed <= vd * (1 + u52))%Q ->
  (vD * (1 - u52) <= ED)%Q -> (ED <= vD * (1 + u52))%Q ->
  (vp * (1 - u52) <= a * vd)%Q -> (a * vd <= vp * (1 + u52))%Q ->
  ((vq * (1 - u52) * vD <= vp)%Q \/ (vq < 1 # 4)%Q) ->
  (vp <= (vq * (1 + u52) + eta) * vD)%Q ->
  (0 <= Ed)%Q -> (Ed <= ED)%Q ->
  (X * ED == a * Ed)%Q ->
  (X - (1 # 4) <= vq)%Q /\ (vq <= X + (1 # 4))%Q.
Proof.
  intros Ha0 Ha1 HD Hq He0 He1 H1a H1b H2a H2b H3a H3b H4 H5 HEd HEdD HX.
  unfold u52 in *. change (2 ^ 52)%positive with 4503599627370496%positive in *.
  set (u := (1 # 4503599627370496)%Q) in *.
  assert (Hu : (u == 1 # 4503599627370496)%Q) by reflexivity.
  assert (HED : (0 < ED)%Q) by nra.
  assert (HX0 : (0 <= X)%Q).
  { destruct (Qlt_le_dec X 0) as [Hn|]; [exfalso|assumption]. nra. }
  assert (HXa : (X <= a)%Q).
  { destruct (Qlt_le_dec a X) as [Hn|]; [exfalso|assumption]. nra. }
  split.
  - (* X (1-u) vD <= X ED = a Ed <= a vd (1+u) <= vp (1+u)^2 <= (vq(1+u)+eta)(1+u)^2 vD *)
    assert (L1 : (a * Ed <= a * (vd * (1 + u)))%Q) by nra.
    assert (L2 : (a * vd * (1 + u) <= vp * (1 + u) * (1 + u))%Q) by nra.
    assert (L3 : (vp * ((1 + u) * (1 + u))
                  <= (vq * (1 + u) + eta) * vD * ((1 + u) * (1 + u)))%Q) by nra.
    assert (L4 : (X * (vD * (1 - u)) <= X * ED)%Q) by nra.
    assert (L5 : (X * (1 - u) * vD
                  <= (vq * (1 + u) + eta) * ((1 + u) * (1 + u)) * vD)%Q) by lra.
    assert (L6 : (X * (1 - u) <= (vq * (1 + u) + eta) * ((1 + u) * (1 + u)))%Q).
    { set (L := (X * (1 - u))%Q) in *.
      set (R := ((vq * (1 + u) + eta) * ((1 + u) * (1 + u)))%Q) in *. clearbody L R.
      destruct (Qlt_le_dec R L) as [Hlt|]; [exfalso|assumption]. nra. }
    clear - L6 HXa Ha1 He1 HX0 He0. unfold u in L6. lra.
  - destruct H4 as [H4|H4]; [|lra].
    assert (T1 : (vp * (1 - u) * (1 - u) <= a * vd * (1 - u))%Q) by nra.
    assert (T2 : (a * (vd * (1 - u)) <= a * Ed)%Q) by nra.
    assert (T4 : (X * ED <= X * (vD * (1 + u)))%Q) by nra.
    assert (S2 : (vq * (1 - u) * vD * ((1 - u) * (1 - u)) <= vp * ((1 - u) * (1 - u)))%Q) by nra.
    assert (S3 : (vq * ((1 - u) * (1 - u) * (1 - u)) * vD <= X * (1 + u) * vD)%Q) by lra.
    assert (S4 : (vq * ((1 - u) * (1 - u) * (1 - u)) <= X * (1 + u))%Q).
    { set (L := (vq * ((1 - u) * (1 - u) * (1 - u)))%Q) in *.
      set (R := (X * (1 + u))%Q) in *. clearbody L R.
      destruct (Qlt_le_dec R L) as [Hlt|]; [exfalso|assumption]. nra. }
    clear - S4 HXa Ha1 HX0. unfold u in S4. lra.
Qed.

Lemma floor_close (t : Z) (vq X : Q) :
  (inject_Z t <= vq)%Q -> (vq < inject_Z (t + 1))%Q ->
  (X - (1 # 4) <= vq)%Q -> (vq <= X + (1 # 4))%Q ->
  Qfloor X - 1 <= t <= Qfloor X + 1.
Proof.
  intros H1 H2 H3 H4.
  pose proof (Qfloor_le X) as F1. pose proof (Qlt_floor X) as F2.
  rewrite inject_Z_succ in H2. rewrite inject_Z_plus in F2. change (inject_Z 1) with 1%Q in F2.
  split.
  - destruct (Z.le_gt_cases (Qfloor X - 1) t) as [|Hgt]; [assumption|exfalso].
    assert (Hq : (inject_Z t + 2 <= inject_Z (Qfloor X))%Q).
    { change 2%Q with (inject_Z 2). rewrite <- inject_Z_plus, <- Zle_Qle. lia. }
    lra.
  - destruct (Z.le_gt_cases t (Qfloor X + 1)) as [|Hgt]; [assumption|exfalso].
    assert (Hq : (inject_Z (Qfloor X) + 2 <= inject_Z t)%Q).
    { change 2%Q with (inject_Z 2). rewrite <- inject_Z_plus, <- Zle_Qle. lia. }
    lra.
Qed.

Lemma floor_small (X : Q) : (0 <= X)%Q -> (X < 2)%Q -> 0 <= Qfloor X <= 1.
Proof.
  intros H0 H2. pose proof (Qfloor_le X) as F1. pose proof (Qlt_floor X) as F2.
  rewrite inject_Z_plus in F2. change (inject_Z 1) with 1%Q in F2.
  split.
  - destruct (Z.le_gt_cases 0 (Qfloor X)) as [|Hgt]; [assumption|exfalso].
    assert (Hq : (inject_Z (Qfloor X) + 1 <= 0)%Q).
    { change 1%Q with (inject_Z 1). change 0%Q with (inject_Z 0).
      rewrite <- inject_Z_plus, <- Zle_Qle. lia. }
    lra.
  - destruct (Z.le_gt_cases (Qfloor X) 1) as [|Hgt]; [assumption|exfalso].
    assert (Hq : (2 <= inject_Z (Qfloor X))%Q).
    { change 2%Q with (inject_Z 2). rewrite <- Zle_Qle. lia. }
    lra.
Qed.

(** *** Which operands give an ordinary result *)

Lemma SFdiv_ordinary_inv (x y : spec_float) :
  ordinary (SF64div x y) -> ordinary x /\ unbounded y.
Proof.
  destruct x as [sx|sx| |sx mx ex], y as [sy|sy| |sy my ey];
    cbn [ordinary unbounded]; try (intros _; split; exact I);
    cbn; intros H; contradiction.
Qed.

Lemma SFmul_ordinary_inv (x y : spec_float) :
  ordinary (SF64mul x y) -> ordinary x /\ ordinary y.
Proof.
  destruct x as [sx|sx| |sx mx ex], y as [sy|sy| |sy my ey];
    cbn [ordinary]; try (intros _; split; exact I);
    cbn; intros H; contradiction.
Qed.

Lemma SFsub_ordinary_inv (x y : spec_float) :
  ordinary (SF64sub x y) -> ordinary x /\ ordinary y.
Proof.
  destruct x as [sx|sx| |sx mx ex], y as [sy|sy| |sy my ey];
    cbn [ordinary]; try (intros _; split; exact I);
    try (destruct sx, sy; cbn; intros H; contradiction);
    try (destruct sx; cbn; intros H; contradiction);
    try (destruct sy; cbn; intros H; contradiction);
    cbn; intros H; contradiction.
Qed.

Lemma truncate_ordinary (x : spec_float) (z : Z) : truncate x = Some z -> ordinary x.
Proof. destruct x; cbn; try discriminate; intros _; exact I. Qed.

Lemma mag_lt_max (s : bool) (m : positive) (e : Z) :
  valid_binary (S754_finite s m e) = true ->
  (mag (S754_finite s m e) < pow2 1024)%Q.
Proof.
  intros V. destruct (valid_finite _ _ _ V) as (He & Hm & _). cbn [mag].
  assert (A1 : (inject_Z (Z.pos m) * pow2 e < inject_Z (2 ^ 53) * pow2 e)%Q).
  { apply Qmult_lt_compat_r; [apply pow2_pos|]. now rewrite <- Zlt_Qlt. }
  assert (A2 : (inject_Z (2 ^ 53) * pow2 e <= pow2 1024)%Q).
  { rewrite (scale_pow2 1 e 53) by lia. rewrite <- (Qmult_1_l (pow2 1024)).
    apply Qmult_le_l; [reflexivity|]. apply pow2_le. lia. }
  eapply Qlt_le_trans; [exact A1|exact A2].
Qed.

Lemma least_small : (0 <= least)%Q /\ (least <= 1 # 16)%Q.
Proof. split; [apply Qlt_le_weak, pow2_pos|]. vm_compute. discriminate. Qed.

Lemma largest_small :
  (pow2 1024 * ((1 + u52) * (1 + u52)) < 2 * (inject_Z (2 ^ 52 - 1) * pow2 972))%Q.
Proof. vm_compute. reflexivity. Qed.

(** Whatever the roundings do, for a remaining width that is not negative
    and [min <= cur <= max], a defined fill count is within one of the
    floor of the exact quotient; and [min < max] then holds. *)
Theorem fill_count_near_floor (a : Z) (cur min max : float) (c m M : Q) (nc : Z) :
  0 <= a <= 2 ^ 31 ->
  (min <=? cur)%float = true ->
  (cur <=? max)%float = true ->
  double_value cur = Some c ->
  double_value min = Some m ->
  double_value max = Some M ->
  fill_count a cur min max = Some nc ->
  (m < M)%Q /\ spec_fill a c m M - 1 <= nc <= spec_fill a c m M + 1.
Proof.
  intros Ha Hmc HcM Hc Hm HM. unfold fill_count, double_to_int.
  pose proof (Prim2SF_valid cur) as Vc. pose proof (Prim2SF_valid min) as Vm.
  pose proof (Prim2SF_valid max) as VM.
  pose proof (Prim2SF_valid (cur - min)) as Vd.
  pose proof (Prim2SF_valid (max - min)) as VD.
  pose proof (Prim2SF_valid (int_to_double a * (cur - min))) as Vp.
  pose proof (Prim2SF_valid (fill_double a cur min max)) as Vq.
  unfold fill_double, double_value in *.
  rewrite leb_spec in Hmc, HcM.
  rewrite div_spec, mul_spec, !sub_spec in *.
  set (xc := Prim2SF cur) in *. set (xm := Prim2SF min) in *. set (xM := Prim2SF max) in *.
  set (xa := Prim2SF (int_to_double a)) in *.
  destruct (SF_value_sval _ _ Hc) as [Oc Ec].
  destruct (SF_value_sval _ _ Hm) as [Om Em].
  destruct (SF_value_sval _ _ HM) as [OM EM].
  pose proof (SFleb_value _ _ Vm Vc Om Oc Hmc) as Lmc.
  pose proof (SFleb_value _ _ Vc VM Oc OM HcM) as LcM.
  assert (Lmc' : (m <= c)%Q) by lra.
  assert (LcM' : (c <= M)%Q) by lra.
  pose proof (SFsub_value xc xm Vc Vm Oc Om Lmc Vd) as Bd.
  pose proof (SFsub_value xM xm VM Vm OM Om ltac:(lra) VD) as BD.
  pose proof (fun s => SFsub_zero xc xm s Vc Vm Oc Om) as Zd.
  pose proof (fun s => SFsub_infinity xM xm s OM Om ltac:(lra)) as ID.
  clear Hc Hm HM Vc Vm VM Hmc HcM.
  set (d := SF64sub xc xm) in *. set (D := SF64sub xM xm) in *.
  set (p := SF64mul xa d) in *. set (q := SF64div p D) in *.
  destruct (truncate q) as [z|] eqn:Et; [|discriminate].
  intros Hz. unfold int_checked in Hz. destruct (in_int z); [|discriminate].
  injection Hz as <-.
  pose proof (truncate_ordinary _ _ Et) as Oq.
  destruct (SFdiv_ordinary_inv _ _ Oq) as [Op UD].
  destruct (SFmul_ordinary_inv _ _ Op) as [_ Od].
  (* the denominator is positive *)
  assert (HED : (0 < M - m)%Q).
  { destruct D as [sD|sD| |sD mD eD]; try contradiction.
    - specialize (ID sD eq_refl).
      assert (H0 : (0 < inject_Z (2 ^ 52 - 1) * pow2 972)%Q) by reflexivity. lra.
    - destruct BD as (_ & BD1 & _). pose proof (mag_pos sD mD eD) as HD.
      assert (Hu : (0 < 1 - u52)%Q) by reflexivity.
      set (vD := mag _) in *. clearbody vD.
      assert (0 < vD * (1 - u52))%Q by nra. lra. }
  split; [lra|].
  unfold spec_fill.
  set (X := (inject_Z a * (c - m) / (M - m))%Q).
  assert (HX : (X * (M - m) == inject_Z a * (c - m))%Q).
  { unfold X. field. lra. }
  assert (Ha0 : (0 <= inject_Z a)%Q) by (change 0%Q with (inject_Z 0); rewrite <- Zle_Qle; lia).
  assert (Ha1 : (inject_Z a <= 2147483648)%Q).
  { change 2147483648%Q with (inject_Z (2 ^ 31)). rewrite <- Zle_Qle. lia. }
  assert (HX0 : (0 <= X)%Q).
  { destruct (Qlt_le_dec X 0) as [Hn|]; [exfalso|assumption].
    set (qa := inject_Z a) in *. clearbody qa X. nra. }
  assert (Hsmall : (inject_Z a * (c - m) < 2 * (M - m))%Q -> Qfloor X - 1 <= 0 <= Qfloor X + 1).
  { intros Hs. assert (HX2 : (X < 2)%Q).
    { destruct (Qlt_le_dec X 2) as [|Hn]; [assumption|exfalso].
      set (qa := inject_Z a) in *. clearbody qa X. nra. }
    pose proof (floor_small X HX0 HX2). lia. }
  destruct (Z.eq_dec a 0) as [Hza|Hnz].
  { (* an empty width *)
    subst a. assert (E : z = 0).
    { assert (Exa : xa = S754_zero false) by exact int_to_double_zero.
      unfold q, p in Et. rewrite Exa in Et. clear - Et Od UD.
      destruct d as [sd|sd| |sd md ed]; try contradiction;
        destruct D as [sD|sD| |sD mD eD]; try contradiction;
        cbn in Et; now injection Et. }
    subst z. apply Hsmall. change (inject_Z 0) with 0%Q. lra. }
  destruct (int_to_double_spec a ltac:(lia) Hnz) as (ma & ea & Ea & Hea & Hma).
  fold xa in Ea. replace (a <? 0) with false in Ea by (symmetry; apply Z.ltb_ge; lia).
  rewrite Z.abs_eq in Hma by lia.
  destruct d as [sd|sd| |sd md ed] eqn:Ed; try contradiction.
  { (* cur and min have the same value *)
    specialize (Zd sd eq_refl).
    assert (Zd' : (c - m == 0)%Q) by lra.
    assert (E : z = 0).
    { unfold q, p in Et. rewrite Ea in Et.
      destruct D as [sD|sD| |sD mD eD]; try contradiction; cbn in Et; now injection Et. }
    subst z. apply Hsmall.
    rewrite Zd'. lra. }
  destruct Bd as (-> & Bd1 & Bd2).
  assert (Bd1' : (mag (S754_finite false md ed) * (1 - u52) <= c - m)%Q) by lra.
  assert (Bd2' : (c - m <= mag (S754_finite false md ed) * (1 + u52))%Q) by lra.
  clear Bd1 Bd2.
  pose proof (SFmul_value a false ma ea false md ed Hea Hma Vd) as Bp.
  pose proof (SFmul_not_zero a false ma ea false md ed) as Zp.
  assert (Ep : p = SF64mul (S754_finite false ma ea) (S754_finite false md ed))
    by (unfold p; now rewrite Ea).
  rewrite <- Ep in Bp, Zp. specialize (Bp Vp).
  destruct p as [sp|sp| |sp mp ep]; try contradiction.
  { exfalso. apply (Zp sp Hea Hma Vd). reflexivity. }
  destruct Bp as (Hsp & Bp1 & Bp2). cbn in Hsp. subst sp.
  pose proof (mag_pos false md ed) as Pd. pose proof (mag_pos false mp ep) as Pp.
  pose proof (mag_lt_max _ _ _ Vp) as Mp.
  assert (Hu : (u52 == 1 # 4503599627370496)%Q) by reflexivity.
  (* width * (cur - min) is at most the product, up to two roundings *)
  assert (Hnum : (inject_Z a * (c - m)
                  <= mag (S754_finite false mp ep) * ((1 + u52) * (1 + u52)))%Q).
  { set (vd := mag (S754_finite false md ed)) in *.
    set (vp := mag (S754_finite false mp ep)) in *.
    set (qa := inject_Z a) in *. clearbody vd vp qa.
    assert (T1 : (qa * (c - m) <= qa * (vd * (1 + u52)))%Q) by nra.
    assert (T2 : (qa * vd * (1 + u52) <= vp * (1 + u52) * (1 + u52))%Q) by nra.
    lra. }
  destruct D as [sD|sD| |sD mD eD] eqn:ED; try contradiction.
  { (* max - min overflows *)
    specialize (ID sD eq_refl).
    assert (ID' : (inject_Z (2 ^ 52 - 1) * pow2 972 <= M - m)%Q) by lra.
    assert (E : z = 0) by (cbn in Et; now injection Et).
    subst z. apply Hsmall.
    pose proof largest_small as Hl.
    set (vp := mag (S754_finite false mp ep)) in *.
    set (B := (inject_Z (2 ^ 52 - 1) * pow2 972)%Q) in *.
    set (T := pow2 1024) in *. set (k := ((1 + u52) * (1 + u52))%Q) in *.
    assert (Hk : (0 < k)%Q) by reflexivity.
    clearbody vp B T k. clear - Hnum Mp Hl ID' Hk.
    assert (vp * k < T * k)%Q by nra. lra. }
  destruct BD as (-> & BD1 & BD2).
  assert (BD1' : (mag (S754_finite false mD eD) * (1 - u52) <= M - m)%Q) by lra.
  assert (BD2' : (M - m <= mag (S754_finite false mD eD) * (1 + u52))%Q) by lra.
  clear BD1 BD2.
  pose proof (mag_pos false mD eD) as PD.
  pose proof (SFdiv_value false mp ep false mD eD) as Bq.
  pose proof (SFdiv_lower false mp ep false mD eD) as Lq.
  fold q in Bq, Lq. specialize (Bq Vq). specialize (Lq Vq).
  destruct least_small as [Hl0 Hl1].
  destruct q as [sq|sq| |sq mq eq] eqn:Eq; try contradiction.
  { (* the quotient underflows *)
    assert (E : z = 0) by (cbn in Et; now injection Et).
    subst z. apply Hsmall.
    set (vp := mag (S754_finite false mp ep)) in *.
    set (vD := mag (S754_finite false mD eD)) in *.
    set (eta := least) in *.
    clearbody vp vD eta. clear - Hnum Lq BD1' Hl0 Hl1 PD Pp Hu.
    assert (T1 : (vp <= (1 # 8) * vD)%Q) by nra.
    unfold u52 in *. change (2 ^ 52)%positive with 4503599627370496%positive in *.
    lra. }
  destruct Bq as (Hsq & Bq). cbn in Hsq. subst sq.
  destruct (truncate_finite _ _ _ _ Et) as (t & Hzt & Ht0 & Htq1 & Htq2).
  subst z.
  pose proof (mag_pos false mq eq) as Pq.
  destruct (quotient_close (inject_Z a)
              (mag (S754_finite false mq eq)) (mag (S754_finite false mp ep))
              (mag (S754_finite false md ed)) (mag (S754_finite false mD eD))
              (c - m) (M - m) X least) as [Q1 Q2]; try assumption; try lra.
  apply (floor_close t _ X Htq1 Htq2 Q1 Q2).
Qed.

(** [==] with an ordinary double: the other one is ordinary, of the same
    value. *)
Lemma SFeqb_value (x y : spec_float) :
  ordinary x -> SFeqb x y = true ->
  ordinary y /\ (sval x == sval y)%Q /\ SFleb x y = true.
Proof.
  intros Ox. unfold SFeqb, SFleb.
  destruct (SFcompare x y) as [[| |]|] eqn:E; try discriminate. intros _.
  split; [|split; [|reflexivity]];
    destruct x as [sx|sx| |sx mx ex], y as [sy|sy| |sy my ey]; try contradiction;
      try exact I; try reflexivity; cbn in E; std;
        try discriminate; try (destruct sx; discriminate); try (destruct sy; discriminate).
  destruct sx, sy; try discriminate.
  - destruct (Z.compare_spec ex ey) as [He| |]; try discriminate. subst ey.
    destruct (Pos.compare_cont Eq mx my) eqn:E'; try discriminate.
    apply Pos.compare_eq in E'. subst. reflexivity.
  - destruct (Z.compare_spec ex ey) as [He| |]; try discriminate. subst ey.
    destruct (Pos.compare_cont Eq mx my) eqn:E'; try discriminate.
    apply Pos.compare_eq in E'. subst. reflexivity.
Qed.

Lemma fill_count_ordinary (a : Z) (cur min max : float) (nc : Z) :
  fill_count a cur min max = Some nc ->
  ordinary (Prim2SF cur) /\ ordinary (Prim2SF min).
Proof.
  unfold fill_count, double_to_int, fill_double.
  rewrite div_spec, mul_spec, !sub_spec.
  destruct (truncate _) as [z|] eqn:Et; [|discriminate]. intros _.
  apply truncate_ordinary in Et.
  destruct (SFdiv_ordinary_inv _ _ Et) as [Op _].
  destruct (SFmul_ordinary_inv _ _ Op) as [_ Od].
  exact (SFsub_ordinary_inv _ _ Od).
Qed.

(** With [cur == max] the fill count is the remaining width or one less. *)
Theorem fill_count_at_max (a : Z) (cur min max : float) (nc : Z) :
  0 <= a <= 2 ^ 31 ->
  (min <=? cur)%float = true ->
  (cur =? max)%float = true ->
  fill_count a cur min max = Some nc ->
  a - 1 <= nc <= a.
Proof.
  intros Ha Hmc Heq Hnc.
  destruct (fill_count_ordinary _ _ _ _ _ Hnc) as [Oc Om].
  pose proof Heq as Heq'. rewrite FloatAxioms.eqb_spec in Heq'.
  destruct (SFeqb_value _ _ Oc Heq') as (OM & EcM & Hle).
  rewrite <- leb_spec in Hle.
  destruct (fill_count_between a cur min max nc ltac:(lia) Hmc Hle Hnc) as [Hb _].
  specialize (Hb ltac:(lia)).
  destruct (ordinary_value _ Oc) as [c Hc].
  destruct (ordinary_value _ Om) as [m Hm].
  destruct (ordinary_value _ OM) as [M HM].
  destruct (fill_count_near_floor a cur min max c m M nc Ha Hmc Hle Hc Hm HM Hnc)
    as [HmM [Hlo _]].
  destruct (SF_value_sval _ _ Hc) as [_ Ec].
  destruct (SF_value_sval _ _ HM) as [_ EM].
  assert (E : spec_fill a c m M = a).
  { unfold spec_fill. rewrite <- (Qfloor_Z a) at 2. apply Qfloor_comp.
    assert (EcM' : (c == M)%Q) by lra. rewrite EcM'. field. lra. }
  lia.
Qed.

Lemma leb_double_value (x y : float) (vx vy : Q) :
  (x <=? y)%float = true ->
  double_value x = Some vx -> double_value y = Some vy ->
  (vx <= vy)%Q.
Proof.
  intros H Hx Hy. rewrite leb_spec in H. unfold double_value in *.
  destruct (SF_value_sval _ _ Hx) as [Ox Ex].
  destruct (SF_value_sval _ _ Hy) as [Oy Ey].
  pose proof (SFleb_value _ _ (Prim2SF_valid x) (Prim2SF_valid y) Ox Oy H). lra.
Qed.


(** ** The gated functions *)

Section GatedCalls.

Context {C : Collaborators}.

Lemma gate_returns (s : state) :
  exists ok s1,
    check_params_loaded s = Returns ok s1 /\
    ((_g_params_inited s <> 0 /\ ok = 1 /\ s1 = s) \/
     (_g_params_inited s = 0 /\ ok = 1 /\ _g_params_inited s1 = 1 /\
      (output s1 = (output s ++ first_load)%list \/
       output s1 = (output s ++ fallback)%list)) \/
     (_g_params_inited s = 0 /\ ok = 0 /\ _g_params_inited s1 = 0 /\
      output s1 = (output s ++ gave_up)%list)).
Proof.
  destruct (Z.eq_dec (_g_params_inited s) 0) as [H|H].
  - rewrite (gate_uninitialised s H).
    destruct (Load_Params_File params_file (the_params s)) as [r1 p1].
    destruct (r1 =? 0).
    + eexists _, _. split; [reflexivity|]. right; left. cbn. auto.
    + destruct (Load_Params_File params_file (Print_Params_File params_file p1)) as [r2 p2].
      destruct (r2 =? 0); eexists _, _; (split; [reflexivity|]); cbn; auto 10.
  - exists 1, s. split; [now apply gate_initialised|auto].
Qed.

Ltac gated_message Hgate :=
  unfold debug, progress; unfold bind at 1; rewrite Hgate; unfold bind, read_flag;
  match goal with
  | |- context [c_true ?ok && c_true ?flag] => destruct (c_true ok && c_true flag)
  end;
  unfold vfprintf, ret, fflush_NULL, emit, emits, message_if; cbn;
  now rewrite <- ?app_assoc.

Lemma debug_spec (str : string) (argList : va_list) (s : state) (ok : Z) (s1 : state) :
  check_params_loaded s = Returns ok s1 ->
  debug str argList s
  = Returns tt
      (emits (message_if (c_true ok && c_true (SHOW_DEBUG_MESSAGES (the_params s1)))
                         str argList ++ [Fflush]) s1).
Proof. intros H. gated_message H. Qed.

Lemma progress_spec (str : string) (argList : va_list) (s : state) (ok : Z) (s1 : state) :
  check_params_loaded s = Returns ok s1 ->
  progress str argList s
  = Returns tt
      (emits (message_if (c_true ok && c_true (SHOW_PROGRESS_MESSAGES (the_params s1)))
                         str argList ++ [Fflush]) s1).
Proof. intros H. gated_message H. Qed.

Lemma progress_meter_spec (cur min max : float) (len : Z) (str : string)
      (argList : va_list) (s : state) (ok : Z) (s1 : state) :
  check_params_loaded s = Returns ok s1 ->
  progress_meter cur min max len str argList s
  = if c_true ok && c_true (SHOW_PROGRESS_MESSAGES (the_params s1)) then
      match render_meter cur min max len (vformat str argList) with
      | Some buf => Returns tt (emits [Fprintf (vformat buf []); Fflush] s1)
      | None => Undefined
      end
    else Returns tt s1.
Proof.
  intros H. unfold progress_meter. unfold bind at 1. rewrite H.
  unfold bind at 1, read_flag.
  destruct (c_true ok && c_true (SHOW_PROGRESS_MESSAGES (the_params s1))); [|reflexivity].
  destruct (render_meter _ _ _ _ _); [|reflexivity].
  unfold bind, vfprintf, fflush_NULL, emit, emits; cbn. now rewrite <- app_assoc.
Qed.

Lemma stream_text_gave_up :
  stream_text gave_up
  = "--- Warning: "
    ++ vformat load_failed_format [VStr params_file; VStr params_file]
    ++ "--- Warning: "
    ++ vformat still_failed_format [].
Proof.
  unfold gave_up, fallback, first_load, warning_events.
  cbn [stream_text app]. now rewrite append_nil_r.
Qed.

Lemma loader_calls_message_if (b : bool) (str : string) (argList : va_list) :
  loader_calls (message_if b str argList ++ [Fflush]) = O.
Proof. now destruct b. Qed.

(** Whatever a gated call does after its gate, it does not call the loader,
    and it touches neither the flag nor the parameters. *)
Lemma run_call_after_gate (c : gated_call) (s : state) (r : unit) (s2 : state) :
  run_call c s = Returns r s2 ->
  exists ok s1 es,
    check_params_loaded s = Returns ok s1 /\ s2 = emits es s1 /\ loader_calls es = O.
Proof.
  destruct r. destruct (gate_returns s) as (ok & s1 & Hg & _).
  destruct c as [str al|str al|cur min max len str al]; cbn [run_call].
  - rewrite (debug_spec _ _ _ _ _ Hg). intros [= <-].
    eexists _, _, _. split; [eassumption|]. split; [reflexivity|].
    apply loader_calls_message_if.
  - rewrite (progress_spec _ _ _ _ _ Hg). intros [= <-].
    eexists _, _, _. split; [eassumption|]. split; [reflexivity|].
    apply loader_calls_message_if.
  - rewrite (progress_meter_spec _ _ _ _ _ _ _ _ _ Hg).
    destruct (c_true ok && _).
    + destruct (render_meter _ _ _ _ _); [|discriminate]. intros [= <-].
      eexists _, _, _. split; [eassumption|]. split; reflexivity.
    + intros [= <-]. exists ok, s1, []. now rewrite emits_nil.
Qed.

Lemma run_calls_initialised (cs : list gated_call) :
  forall s r s',
    _g_params_inited s <> 0 ->
    run_calls cs s = Returns r s' ->
    _g_params_inited s' = _g_params_inited s /\
    the_params s' = the_params s /\
    loader_calls (output s') = loader_calls (output s).
Proof.
  induction cs as [|c cs IH]; intros s r s' Hs; cbn [run_calls].
  - unfold ret. now intros [= _ <-].
  - unfold bind. destruct (run_call c s) as [[] s2| |] eqn:E; try discriminate.
    apply run_call_after_gate in E as (ok & s1 & es & Hg & -> & Hes).
    rewrite (gate_initialised s Hs) in Hg. injection Hg as <- <-.
    intros H. apply IH in H; [|exact Hs]. cbn in H.
    destruct H as (H1 & H2 & H3). repeat split; try assumption.
    rewrite H3, loader_calls_app, Hes. lia.
Qed.

End GatedCalls.

(** * The claims *)

(** ** The configuration gate *)

(** C2. From an uninitialised state, [check_params_loaded] calls the loader;
    if that first load succeeds it sets the flag and returns 1.  If it
    fails, the gate emits a warning, has the default parameters written,
    and calls the loader once more; when the retry succeeds it sets the flag
    and returns 1; when the retry fails too it emits a second warning and
    returns 0 with the flag still 0, and a later call goes to the loader
    again. *)
Theorem check_params_loaded_first_use {C : Collaborators} (s : state) :
  _g_params_inited s = 0 ->
  let first := Load_Params_File params_file (the_params s) in
  let retry :=
    Load_Params_File params_file (Print_Params_File params_file (snd first)) in
  (fst first = 0 ->
   check_params_loaded s
   = Returns 1 (mkState 1 (snd first) (output s ++ first_load))) /\
  (fst first <> 0 -> fst retry = 0 ->
   check_params_loaded s
   = Returns 1 (mkState 1 (snd retry) (output s ++ fallback))) /\
  (fst first <> 0 -> fst retry <> 0 ->
   check_params_loaded s
   = Returns 0 (mkState 0 (snd retry) (output s ++ gave_up))) /\
  loader_calls fallback = 2%nat /\
  loader_calls gave_up = 2%nat /\
  (forall s',
      check_params_loaded s = Returns 0 s' ->
      _g_params_inited s' = 0 /\
      exists ok s'',
        check_params_loaded s' = Returns ok s'' /\
        (loader_calls (output s') < loader_calls (output s''))%nat).
Proof.
  intros H first retry. pose proof (gate_uninitialised s H) as E.
  subst first retry.
  destruct (Load_Params_File params_file (the_params s)) as [r1 p1]. cbn [fst snd].
  destruct (Load_Params_File params_file (Print_Params_File params_file p1))
    as [r2 p2]. cbn [fst snd].
  assert (Hlater : forall s', check_params_loaded s = Returns 0 s' ->
            _g_params_inited s' = 0 /\
            exists ok s'', check_params_loaded s' = Returns ok s'' /\
                           (loader_calls (output s') < loader_calls (output s''))%nat).
  { intros s' Hs'. rewrite Hs' in E.
    assert (H0 : _g_params_inited s' = 0).
    { destruct (r1 =? 0); [discriminate|]. destruct (r2 =? 0); [discriminate|].
      now injection E as ->. }
    split; [exact H0|].
    destruct (gate_returns s') as (ok & s'' & Hg & Hcases).
    exists ok, s''. split; [exact Hg|].
    destruct Hcases as [(Hn & _)|[(_ & _ & _ & [Ho|Ho])|(_ & _ & _ & Ho)]];
      [contradiction| | |]; rewrite Ho, loader_calls_app; cbn; lia. }
  split; [|split; [|split; [|split; [|split]]]];
    [ | | |reflexivity|reflexivity|exact Hlater].
  - intros ->. exact E.
  - intros H1 ->. apply Z.eqb_neq in H1. now rewrite H1 in E.
  - intros H1 H2. apply Z.eqb_neq in H1, H2. now rewrite H1, H2 in E.
Qed.

Lemma check_params_loaded_first_use_witness :
  check_params_loaded (Sample.fresh Sample.unreadable)
  = Returns 0 (Sample.process 0 Sample.unreadable gave_up)
  /\ check_params_loaded (Sample.fresh Sample.missing)
     = Returns 1 (Sample.process 1 (Sample.mkDisk true true (0, 1) (0, 1)) fallback).
Proof.
  split.
  - apply (check_params_loaded_first_use (Sample.fresh Sample.unreadable));
      [reflexivity|discriminate|discriminate].
  - apply (check_params_loaded_first_use (Sample.fresh Sample.missing));
      [reflexivity|discriminate|reflexivity].
Defined.

(** C3, as amended.  Once [_g_params_inited] is set the gate returns 1 at
    once and changes nothing, so no later gated call reaches the loader;
    and when the first load succeeds, the loader is called exactly once
    over any sequence of gated calls. *)
Theorem gate_idempotent_once_initialised {C : Collaborators}
        (cs : list gated_call) (s s' : state) :
  run_calls cs s = Returns tt s' ->
  (_g_params_inited s <> 0 ->
   check_params_loaded s = Returns 1 s /\
   loader_calls (output s') = loader_calls (output s) /\
   the_params s' = the_params s /\
   _g_params_inited s' = _g_params_inited s) /\
  (_g_params_inited s = 0 ->
   fst (Load_Params_File params_file (the_params s)) = 0 ->
   cs <> [] ->
   loader_calls (output s') = S (loader_calls (output s))).
Proof.
  intros Hrun. split.
  - intros Hs. split; [now apply gate_initialised|].
    destruct (run_calls_initialised cs s tt s' Hs Hrun) as (H1 & H2 & H3). auto.
  - intros Hs Hload Hcs. destruct cs as [|c cs]; [contradiction|].
    cbn [run_calls] in Hrun. unfold bind in Hrun.
    destruct (run_call c s) as [[] s2| |] eqn:E; try discriminate.
    apply run_call_after_gate in E as (ok & s1 & es & Hg & -> & Hes).
    rewrite (gate_uninitialised s Hs) in Hg.
    destruct (Load_Params_File params_file (the_params s)) as [r1 p1].
    cbn [fst] in Hload. subst r1. cbn in Hg. injection Hg as <- <-.
    apply run_calls_initialised in Hrun as (_ & _ & ->); [|cbn; lia].
    cbn. rewrite !loader_calls_app, Hes. cbn. lia.
Qed.

Lemma gate_idempotent_once_initialised_witness :
  loader_calls
    [Call_Load_Params_File params_file; Fprintf "a"; Fflush; Fprintf "b"; Fflush]
  = 1%nat.
Proof.
  apply (gate_idempotent_once_initialised
           [Debug "a" []; Progress "b" []]
           (Sample.fresh (Sample.present 1 1))
           (Sample.process 1 (Sample.mkDisk true true (1, 1) (1, 1))
              [Call_Load_Params_File params_file;
               Fprintf "a"; Fflush; Fprintf "b"; Fflush]));
    [reflexivity|reflexivity|reflexivity|discriminate].
Defined.

(** C3 as stated fails: while the loads keep failing, every gated call runs
    the whole sequence again, two loader calls each. *)
Lemma loader_called_again_after_failure :
  exists s',
    run_calls [Debug "a" []; Debug "b" []] (Sample.fresh Sample.unreadable)
    = Returns tt s' /\
    _g_params_inited s' = 0 /\
    loader_calls (output s') = 4%nat.
Proof. eexists. split; [vm_compute; reflexivity|]. split; reflexivity. Qed.

(** ** debug and progress *)

(** C1, as amended.  [debug] (and [progress], on its own flag) writes the
    formatted message, with no prefix, exactly when the gate answered
    non-zero and the flag is non-zero; it then flushes and returns, also
    when nothing was written.  When the gate fails, the message is not
    written: the call adds one flush to what the gate itself has done, and
    the only text that reaches the stream is the gate's two warnings. *)
Theorem debug_progress_gated {C : Collaborators}
        (str : string) (argList : va_list) (s : state) :
  exists ok s1,
    check_params_loaded s = Returns ok s1 /\
    debug str argList s
    = Returns tt
        (emits (message_if (c_true ok && c_true (SHOW_DEBUG_MESSAGES (the_params s1)))
                           str argList ++ [Fflush]) s1) /\
    progress str argList s
    = Returns tt
        (emits (message_if (c_true ok && c_true (SHOW_PROGRESS_MESSAGES (the_params s1)))
                           str argList ++ [Fflush]) s1) /\
    (ok = 0 ->
     debug str argList s = Returns tt (emits [Fflush] s1) /\
     progress str argList s = Returns tt (emits [Fflush] s1) /\
     stream_text (output (emits [Fflush] s1))
     = stream_text (output s)
       ++ "--- Warning: "
       ++ vformat load_failed_format [VStr params_file; VStr params_file]
       ++ "--- Warning: "
       ++ vformat still_failed_format []).
Proof.
  destruct (gate_returns s) as (ok & s1 & Hg & Hcases).
  exists ok, s1. split; [exact Hg|].
  split; [now apply debug_spec|]. split; [now apply progress_spec|].
  intros ->. rewrite (debug_spec _ _ _ _ _ Hg), (progress_spec _ _ _ _ _ Hg).
  cbn [c_true Z.eqb negb andb message_if app]. split; [reflexivity|].
  split; [reflexivity|].
  destruct Hcases as [(_ & Hk & _)|[(_ & Hk & _)|(_ & _ & _ & Ho)]];
    try discriminate.
  cbn [emits output]. rewrite Ho, !stream_text_app, stream_text_gave_up.
  cbn [stream_text]. now rewrite append_nil_r.
Qed.

(** C1 as stated fails: a [debug] call made while the gate fails does put
    text on the stream, the gate's warnings. *)
Lemma debug_prints_warnings_while_gate_fails :
  exists s',
    debug "x=%d" [VInt 5] (Sample.fresh Sample.unreadable) = Returns tt s' /\
    _g_params_inited s' = 0 /\
    stream_text (output s') <> "".
Proof. eexists. split; [vm_compute; reflexivity|]. split; [reflexivity|discriminate]. Qed.

(** ** error and help *)

(** C6.  [error] writes the prefix and the formatted message, flushes, and
    exits with -1, a non-zero status; it does so from every state, and
    does not return. *)
Theorem error_exits_nonzero {C : Collaborators}
        (str : string) (argList : va_list) (s : state) :
  error str argList s
  = Exits (-1)
      (emits [Fprintf "*** ERROR: "; Fprintf (vformat str argList); Fflush] s) /\
  stream_text [Fprintf "*** ERROR: "; Fprintf (vformat str argList); Fflush]
  = "*** ERROR: " ++ vformat str argList /\
  -1 <> 0 /\
  exit_status (-1) <> 0.
Proof.
  split; [|split; [|split]].
  - unfold error, bind, fprintf, vfprintf, fflush_NULL, exit, emit, emits. cbn.
    now rewrite <- !app_assoc.
  - cbn. now rewrite append_nil_r.
  - discriminate.
  - discriminate.
Qed.

(** C7.  [help] with [show] zero returns and changes nothing; with [show]
    non-zero it calls the usage printer on the stream, writes the formatted
    message, flushes, and exits with status 0. *)
Theorem help_shows_or_returns {C : Collaborators}
        (show : Z) (str : string) (argList : va_list) (s : state) :
  help 0 str argList s = Returns tt s /\
  (show <> 0 ->
   help show str argList s
   = Exits 0
       (emits [Call_Print_Argument_Usage 0; Fprintf (vformat str argList); Fflush] s)) /\
  exit_status 0 = 0.
Proof.
  split; [reflexivity|]. split; [|reflexivity].
  intros H. unfold help, c_true. apply Z.eqb_neq in H. rewrite H. cbn [negb].
  unfold bind, vfprintf, fflush_NULL, exit, emit, emits. cbn.
  now rewrite <- !app_assoc.
Qed.

(** ** progress_meter when suppressed *)

(** C10, as amended.  When the gate answers 0 or the progress flag is 0,
    [progress_meter] adds nothing to what the gate itself has done: no
    write and no flush; [progress] and [debug], when suppressed, add one
    flush.  When the flag had already been set, the gate does nothing
    either, and a suppressed [progress_meter] leaves the state as it was. *)
Theorem progress_meter_suppressed {C : Collaborators}
        (cur min max : float) (len : Z) (str : string) (argList : va_list)
        (s : state) :
  exists ok s1,
    check_params_loaded s = Returns ok s1 /\
    (c_true ok && c_true (SHOW_PROGRESS_MESSAGES (the_params s1)) = false ->
     progress_meter cur min max len str argList s = Returns tt s1 /\
     progress str argList s = Returns tt (emits [Fflush] s1)) /\
    (c_true ok && c_true (SHOW_DEBUG_MESSAGES (the_params s1)) = false ->
     debug str argList s = Returns tt (emits [Fflush] s1)) /\
    (_g_params_inited s <> 0 -> s1 = s).
Proof.
  destruct (gate_returns s) as (ok & s1 & Hg & Hcases).
  exists ok, s1. split; [exact Hg|]. split; [|split].
  - intros Hoff.
    rewrite (progress_meter_spec _ _ _ _ _ _ _ _ _ Hg), (progress_spec _ _ _ _ _ Hg).
    now rewrite Hoff.
  - intros Hoff. rewrite (debug_spec _ _ _ _ _ Hg). now rewrite Hoff.
  - intros Hs. rewrite (gate_initialised s Hs) in Hg. now injection Hg.
Qed.

(** C10 as stated fails: when the gate fails, a [progress_meter] call has
    the gate's warnings written and flushed. *)
Lemma progress_meter_warns_while_gate_fails :
  exists s',
    progress_meter 50 0 100 20 "Loading" [] (Sample.fresh Sample.unreadable)
    = Returns tt s' /\
    stream_text (output s') <> "" /\
    flushes (output s') = 2%nat.
Proof. eexists. split; [vm_compute; reflexivity|]. split; [discriminate|reflexivity]. Qed.

(** ** progress_meter when enabled *)

(** When the gate and the flag let it through and the call returns,
    [progress_meter] has assembled a line of the shape below and passed it
    to [fprintf] as the format, then flushed. *)
Lemma progress_meter_enabled {C : Collaborators}
      (cur min max : float) (len : Z) (str : string) (argList : va_list)
      (s : state) (ok : Z) (s1 s2 : state) :
  check_params_loaded s = Returns ok s1 ->
  c_true ok && c_true (SHOW_PROGRESS_MESSAGES (the_params s1)) = true ->
  progress_meter cur min max len str argList s = Returns tt s2 ->
  let caption := vformat str argList in
  let wr := width_remaining len caption in
  exists line nc,
    render_meter cur min max len caption = Some line /\
    s2 = emits [Fprintf (vformat line []); Fflush] s1 /\
    fill_count wr cur min max = Some nc /\
    line = CR ++ caption ++ "[" ++ fill nc ++ unfilled wr nc ++ "]" ++ CR /\
    INT_MIN <= wr <= INT_MAX.
Proof.
  intros Hg Hon Hrun caption wr.
  rewrite (progress_meter_spec _ _ _ _ _ _ _ _ _ Hg), Hon in Hrun.
  destruct (render_meter cur min max len (vformat str argList)) as [line|] eqn:E;
    [|discriminate].
  injection Hrun as <-.
  destruct (render_meter_shape _ _ _ _ _ _ E) as (nc & Hnc & Hline & Hrange).
  exists line, nc. auto.
Qed.

Lemma count_bar_pipes (len nc : Z) :
  count_char "|" (fill nc ++ unfilled len nc) = Z.to_nat nc.
Proof.
  unfold fill, unfilled.
  rewrite count_char_append, count_char_copies_same, count_char_copies_other; [lia|reflexivity].
Qed.

Lemma count_bar_dashes (len nc : Z) :
  count_char "-" (fill nc ++ unfilled len nc) = Z.to_nat (len - (nc + 1)).
Proof.
  unfold fill, unfilled.
  rewrite count_char_append, count_char_copies_same, count_char_copies_other; [lia|reflexivity].
Qed.

Lemma budget_of_line (caption : string) (len nc : Z) :
  budget (CR ++ caption ++ "[" ++ fill nc ++ unfilled len nc ++ "]" ++ CR)
  = Z.of_nat (String.length caption) + 2
    + Z.of_nat (Z.to_nat nc) + Z.of_nat (Z.to_nat (len - (nc + 1))).
Proof.
  unfold budget, fill, unfilled.
  rewrite !length_append, !length_copies. cbn [String.length CR]. lia.
Qed.

Lemma copies_empty (n : nat) (c : ascii) : copies n (String c "") = "" <-> n = O.
Proof. destruct n; cbn; split; intros H; try reflexivity; discriminate. Qed.

(** C4, as amended.  When [progress_meter] is enabled and returns, with
    [min <= cur <= max], the bar between the brackets is [max(0, nc)]
    characters '|' followed by [max(0, width_remaining - nc - 1)]
    characters '-', where [nc] is the double-precision quotient
    width_remaining*(cur-min)/(max-min) converted to [int].
    - With [cur == min], or with a remaining width that is negative, no
      '|' is drawn.
    - With a remaining width that is not negative, [nc] lies between 0 and
      that width, and the number of '|' is within one of the floor the
      specification gives, whatever the three roundings do ([min < max]
      then holds, the call being defined); it is that floor when the
      double operations happen to be exact.
    - With [cur == max] on top, the fill is the remaining width or one
      less, and no '-' is drawn. *)
Theorem fill_segment_length {C : Collaborators}
        (cur min max : float) (len : Z) (str : string) (argList : va_list)
        (s : state) (ok : Z) (s1 s2 : state) :
  check_params_loaded s = Returns ok s1 ->
  c_true ok && c_true (SHOW_PROGRESS_MESSAGES (the_params s1)) = true ->
  progress_meter cur min max len str argList s = Returns tt s2 ->
  (min <=? cur)%float = true ->
  (cur <=? max)%float = true ->
  let caption := vformat str argList in
  let wr := width_remaining len caption in
  exists line nc,
    s2 = emits [Fprintf (vformat line []); Fflush] s1 /\
    line = CR ++ caption ++ "[" ++ fill nc ++ unfilled wr nc ++ "]" ++ CR /\
    fill_count wr cur min max = Some nc /\
    count_char "|" (fill nc ++ unfilled wr nc) = Z.to_nat nc /\
    count_char "-" (fill nc ++ unfilled wr nc) = Z.to_nat (wr - (nc + 1)) /\
    ((cur =? min)%float = true ->
     count_char "|" (fill nc ++ unfilled wr nc) = O) /\
    (wr <= 0 -> count_char "|" (fill nc ++ unfilled wr nc) = O) /\
    (0 <= wr ->
     0 <= nc <= wr /\
     ((cur =? max)%float = true ->
      wr - 1 <= nc /\ count_char "-" (fill nc ++ unfilled wr nc) = O) /\
     (forall c m M : Q,
         double_value cur = Some c ->
         double_value min = Some m ->
         double_value max = Some M ->
         (m < M)%Q /\
         spec_fill wr c m M - 1
         <= Z.of_nat (count_char "|" (fill nc ++ unfilled wr nc))
         <= spec_fill wr c m M + 1 /\
         (exact_fill wr cur min max c m M ->
          Z.of_nat (count_char "|" (fill nc ++ unfilled wr nc))
          = spec_fill wr c m M))).
Proof.
  intros Hg Hon Hrun Hmc HcM caption wr.
  destruct (progress_meter_enabled _ _ _ _ _ _ _ _ _ _ Hg Hon Hrun)
    as (line & nc & _ & Hs2 & Hnc & Hline & Hrange).
  fold caption wr in Hnc, Hline, Hrange.
  assert (Hint : - 2 ^ 31 <= wr <= 2 ^ 31) by (unfold INT_MIN, INT_MAX in Hrange; lia).
  destruct (fill_count_between wr cur min max nc Hint Hmc HcM Hnc) as [Hpos Hneg].
  exists line, nc. rewrite count_bar_pipes, count_bar_dashes.
  repeat (split; [assumption || reflexivity|]).
  split; [|split].
  - intros Heq. now rewrite (fill_count_at_min _ _ _ _ _ Heq Hnc).
  - intros Hwr. specialize (Hneg Hwr). lia.
  - intros Hwr. specialize (Hpos Hwr). split; [exact Hpos|]. split.
    + intros Heq.
      destruct (fill_count_at_max wr cur min max nc ltac:(lia) Hmc Heq Hnc).
      split; lia.
    + intros c m M Hc Hm HM.
      destruct (fill_count_near_floor wr cur min max c m M nc
                  ltac:(lia) Hmc HcM Hc Hm HM Hnc) as [HmM Hnear].
      split; [exact HmM|]. rewrite Z2Nat.id by lia. split; [exact Hnear|].
      intros Hex. rewrite (exact_fill_count _ _ _ _ _ _ _ _ Hex Hnc).
      apply Qtruncate_is_spec_fill; try assumption.
      exact (leb_double_value _ _ _ _ Hmc Hm Hc).
Qed.

Lemma exact_fill_half : exact_fill 12 50 0 100 50 0 100.
Proof.
  unfold exact_fill, double_value. repeat split; try (vm_compute; reflexivity).
  eexists. split; [vm_compute; reflexivity|]. reflexivity.
Qed.

Lemma fill_segment_length_witness :
  exists nc : Z,
    fill_count 12 50 0 100 = Some nc /\
    Z.of_nat (count_char "|" (fill nc ++ unfilled 12 nc)) = 6.
Proof.
  destruct (fill_segment_length 50 0 100 20 "Loading" []
              (Sample.fresh (Sample.present 1 1)) 1
              (Sample.process 1 (Sample.mkDisk true true (1, 1) (1, 1))
                 [Call_Load_Params_File params_file])
              (Sample.process 1 (Sample.mkDisk true true (1, 1) (1, 1))
                 [Call_Load_Params_File params_file;
                  Fprintf (CR ++ "Loading[||||||-----]" ++ CR); Fflush])
              eq_refl eq_refl eq_refl eq_refl eq_refl)
    as (line & nc & _ & _ & Hnc & _ & _ & _ & _ & Hwide).
  destruct Hwide as (_ & _ & Hvalues); [cbn; lia|].
  destruct (Hvalues 50%Q 0%Q 100%Q) as (_ & _ & Hexact);
    try (vm_compute; reflexivity).
  exists nc. split; [exact Hnc|]. apply Hexact. exact exact_fill_half.
Defined.

(** C4 as stated fails when the width does not cover the caption: the
    remaining width is negative, the formula is negative, and no '|' is
    drawn.  Here the formula gives -2. *)
Lemma fill_is_not_the_floor_for_a_short_width :
  (0 <? 100)%float = true /\
  (0 <=? 50)%float = true /\
  (50 <=? 100)%float = true /\
  double_value 50 = Some 50%Q /\
  double_value 0 = Some 0%Q /\
  double_value 100 = Some 100%Q /\
  spec_fill (width_remaining 4 "Loading") 50 0 100 = -2 /\
  progress_meter 50 0 100 4 "Loading" [] (Sample.fresh (Sample.present 1 1))
  = Returns tt
      (Sample.process 1 (Sample.mkDisk true true (1, 1) (1, 1))
         [Call_Load_Params_File params_file;
          Fprintf (CR ++ "Loading[]" ++ CR); Fflush]) /\
  count_char "|" (CR ++ "Loading[]" ++ CR) = O.
Proof. repeat split; vm_compute; reflexivity. Qed.

(** Rounding alone also separates the code from the formula: with
    [cur == max] and three columns left, 3 * 0.7 / 0.7 is a little less
    than 3 in double precision, and two '|' are drawn where the formula
    gives three (0.7 is the double 0x1.6666666666666p-1). *)
Lemma fill_short_of_the_width_by_rounding :
  (0x1.6666666666666p-1 =? 0x1.6666666666666p-1)%float = true /\
  (exists v, double_value 0x1.6666666666666p-1 = Some v /\
             double_value 0 = Some 0%Q /\
             spec_fill 3 v 0 v = 3) /\
  fill_count 3 0x1.6666666666666p-1 0 0x1.6666666666666p-1 = Some 2.
Proof.
  split; [vm_compute; reflexivity|]. split; [|vm_compute; reflexivity].
  eexists. split; [vm_compute; reflexivity|]. split; vm_compute; reflexivity.
Qed.

(** C5, as amended.  When [progress_meter] is enabled and returns, with
    [min <= cur <= max] and a width that covers the caption and the two
    brackets, the fill count lies between 0 and the remaining width
    whatever the roundings do, and the line, the two carriage returns
    apart, holds the width or one character more: exactly the width while
    the fill is below the remaining width, one more when the fill takes all
    of it. *)
Theorem line_budget {C : Collaborators}
        (cur min max : float) (len : Z) (str : string) (argList : va_list)
        (s : state) (ok : Z) (s1 s2 : state) :
  check_params_loaded s = Returns ok s1 ->
  c_true ok && c_true (SHOW_PROGRESS_MESSAGES (the_params s1)) = true ->
  progress_meter cur min max len str argList s = Returns tt s2 ->
  Z.of_nat (String.length (vformat str argList)) + 2 <= len ->
  (min <=? cur)%float = true ->
  (cur <=? max)%float = true ->
  let caption := vformat str argList in
  let wr := width_remaining len caption in
  exists line nc,
    s2 = emits [Fprintf (vformat line []); Fflush] s1 /\
    line = CR ++ caption ++ "[" ++ fill nc ++ unfilled wr nc ++ "]" ++ CR /\
    fill_count wr cur min max = Some nc /\
    0 <= nc <= wr /\
    len <= budget line <= len + 1 /\
    (nc < wr -> budget line = len) /\
    (nc = wr -> budget line = len + 1).
Proof.
  intros Hg Hon Hrun Hlen Hmc HcM caption wr.
  destruct (progress_meter_enabled _ _ _ _ _ _ _ _ _ _ Hg Hon Hrun)
    as (line & nc & _ & Hs2 & Hnc & Hline & Hrange).
  fold caption wr in Hnc, Hline, Hrange.
  exists line, nc. repeat (split; [assumption|]).
  assert (Hwr : wr = len - (Z.of_nat (String.length caption) + 1)) by reflexivity.
  assert (Hint : - 2 ^ 31 <= wr <= 2 ^ 31) by (unfold INT_MIN, INT_MAX in Hrange; lia).
  destruct (fill_count_between wr cur min max nc Hint Hmc HcM Hnc) as [Hpos _].
  fold caption in Hlen. specialize (Hpos ltac:(lia)).
  split; [exact Hpos|].
  rewrite Hline, budget_of_line. lia.
Qed.

Lemma line_budget_witness :
  exists line : string,
    line = CR ++ "Loading" ++ "[" ++ fill 6 ++ unfilled 12 6 ++ "]" ++ CR /\
    budget line = 20.
Proof.
  destruct (line_budget 50 0 100 20 "Loading" []
              (Sample.fresh (Sample.present 1 1)) 1
              (Sample.process 1 (Sample.mkDisk true true (1, 1) (1, 1))
                 [Call_Load_Params_File params_file])
              (Sample.process 1 (Sample.mkDisk true true (1, 1) (1, 1))
                 [Call_Load_Params_File params_file;
                  Fprintf (CR ++ "Loading[||||||-----]" ++ CR); Fflush])
              eq_refl eq_refl eq_refl)
    as (line & nc & _ & Hline & Hnc & _ & _ & Hbelow & _);
    try reflexivity.
  - cbn. lia.
  - assert (Hsix : nc = 6) by (vm_compute in Hnc; congruence).
    subst nc. exists line. split; [exact Hline|].
    apply Hbelow. cbn. lia.
Defined.

(** C5 as stated fails at [cur == max]: the fill takes the whole remaining
    width, the closing bracket comes on top, and a width of 20 yields 21
    characters. *)
Lemma full_bar_exceeds_the_width :
  (0 <? 100)%float = true /\
  (0 <=? 100)%float = true /\
  (100 <=? 100)%float = true /\
  Z.of_nat (String.length "Loading") + 2 <= 20 /\
  progress_meter 100 0 100 20 "Loading" [] (Sample.fresh (Sample.present 1 1))
  = Returns tt
      (Sample.process 1 (Sample.mkDisk true true (1, 1) (1, 1))
         [Call_Load_Params_File params_file;
          Fprintf (CR ++ "Loading[||||||||||||]" ++ CR); Fflush]) /\
  budget (CR ++ "Loading[||||||||||||]" ++ CR) = 21.
Proof. repeat split; vm_compute; try reflexivity; discriminate. Qed.

(** C9, as amended.  When [progress_meter] is enabled and returns, with
    [min <= cur <= max] and a width below the caption length, the remaining
    width is negative, the fill count lies between it and zero whatever the
    roundings do, neither loop runs, and the line is the caption followed
    by an empty pair of brackets. *)
Theorem short_width_draws_no_bar {C : Collaborators}
        (cur min max : float) (len : Z) (str : string) (argList : va_list)
        (s : state) (ok : Z) (s1 s2 : state) :
  check_params_loaded s = Returns ok s1 ->
  c_true ok && c_true (SHOW_PROGRESS_MESSAGES (the_params s1)) = true ->
  progress_meter cur min max len str argList s = Returns tt s2 ->
  len < Z.of_nat (String.length (vformat str argList)) ->
  (min <=? cur)%float = true ->
  (cur <=? max)%float = true ->
  let caption := vformat str argList in
  let wr := width_remaining len caption in
  wr < 0 /\
  exists line nc,
    s2 = emits [Fprintf (vformat line []); Fflush] s1 /\
    fill_count wr cur min max = Some nc /\
    wr <= nc <= 0 /\
    fill nc = "" /\
    unfilled wr nc = "" /\
    line = CR ++ caption ++ "[]" ++ CR.
Proof.
  intros Hg Hon Hrun Hlen Hmc HcM caption wr.
  assert (Hwr : wr < 0) by (unfold wr, width_remaining; fold caption in Hlen; lia).
  split; [exact Hwr|].
  destruct (progress_meter_enabled _ _ _ _ _ _ _ _ _ _ Hg Hon Hrun)
    as (line & nc & _ & Hs2 & Hnc & Hline & Hrange).
  fold caption wr in Hnc, Hline, Hrange.
  assert (Hint : - 2 ^ 31 <= wr <= 2 ^ 31) by (unfold INT_MIN, INT_MAX in Hrange; lia).
  destruct (fill_count_between wr cur min max nc Hint Hmc HcM Hnc) as [_ Hneg].
  specialize (Hneg ltac:(lia)).
  assert (Hf : fill nc = "") by (unfold fill; apply copies_empty; lia).
  assert (Hu : unfilled wr nc = "") by (unfold unfilled; apply copies_empty; lia).
  exists line, nc. repeat (split; [assumption|]).
  now rewrite Hline, Hf, Hu.
Qed.

Lemma short_width_draws_no_bar_witness :
  exists line : string, line = CR ++ "Loading" ++ "[]" ++ CR.
Proof.
  destruct (short_width_draws_no_bar 50 0 100 4 "Loading" []
              (Sample.fresh (Sample.present 1 1)) 1
              (Sample.process 1 (Sample.mkDisk true true (1, 1) (1, 1))
                 [Call_Load_Params_File params_file])
              (Sample.process 1 (Sample.mkDisk true true (1, 1) (1, 1))
                 [Call_Load_Params_File params_file;
                  Fprintf (CR ++ "Loading[]" ++ CR); Fflush])
              eq_refl eq_refl eq_refl)
    as (_ & line & nc & _ & _ & _ & _ & _ & Hline);
    try reflexivity.
  exists line. exact Hline.
Defined.

(** C9 as stated fails for a [cur] below [min]: the negative remaining
    width times a negative ratio is positive, and the fill loop runs. *)
Lemma short_width_still_fills_below_min :
  (0 <? 100)%float = true /\
  2 < Z.of_nat (String.length "Loading") /\
  width_remaining 2 "Loading" = -6 /\
  fill_count (-6) (-100) 0 100 = Some 6 /\
  progress_meter (-100) 0 100 2 "Loading" [] (Sample.fresh (Sample.present 1 1))
  = Returns tt
      (Sample.process 1 (Sample.mkDisk true true (1, 1) (1, 1))
         [Call_Load_Params_File params_file;
          Fprintf (CR ++ "Loading[||||||]" ++ CR); Fflush]).
Proof. repeat split; vm_compute; reflexivity. Qed.

(** C8.  The code passes the assembled line to [fprintf] as the format
    string.  A caption holding "%%" is therefore written with one '%': the
    text on the stream is not the assembled line.  And a line longer than
    [buf] overflows it, which leaves the call undefined. *)
Theorem progress_meter_reformats_the_line :
  render_meter 50 0 100 20 "100%%" = Some (CR ++ "100%%[|||||||------]" ++ CR) /\
  progress_meter 50 0 100 20 "%s" [VStr "100%%"] (Sample.fresh (Sample.present 1 1))
  = Returns tt
      (Sample.process 1 (Sample.mkDisk true true (1, 1) (1, 1))
         [Call_Load_Params_File params_file;
          Fprintf (CR ++ "100%[|||||||------]" ++ CR); Fflush]) /\
  CR ++ "100%[|||||||------]" ++ CR <> CR ++ "100%%[|||||||------]" ++ CR /\
  progress_meter 50 0 100 1100 "Loading" [] (Sample.fresh (Sample.present 1 1))
  = Undefined.
Proof. repeat split; vm_compute; try reflexivity; discriminate. Qed.
